(** * ICommand.hpp: commands, dispatchers and the synchronized batched iteration

    A shallow embedding of [ICommandDispatcher::iterate] (both overloads) and
    of [IteratorCommand::execute] from
    [gatb/tools/designpattern/api/ICommand.hpp].

    The commands of one [iterate] call run concurrently: [execute] is
    therefore embedded as a small-step function (one step per statement of
    its loop), and [dispatchCommands] interleaves the steps of the commands
    in the order a schedule dictates.  Every step records the events it
    performs, so that the properties of the protocol are properties of the
    recorded trace and of the reached state. *)

From stdpp Require Import base list gmap.

(** ** Interfaces used by the dispatcher *)

(** Result of [Iterator<Item>::get (std::vector<Item>&)]: either the call
    returns (the vector as it was left, and the returned boolean), or it
    raises.  The iterator's own state is threaded through. *)
Inductive get_result (Item Src : Type) : Type :=
  | GetOk (items : list Item) (more : bool) (s : Src)
  | GetRaise (s : Src).
Arguments GetOk {Item Src} items more s.
Arguments GetRaise {Item Src} s.

(** [Iterator<Item>]: the two virtual methods used by [iterate]. *)
Class Iterator (Item Src : Type) := {
  reset : Src → Src;
  get : Src → list Item → get_result Item Src
}.

(** The [Functor] template parameter: [operator()] applied to an item (it may
    raise, [None]) and the copy constructor. *)
Class Functor (Item F : Type) := {
  call : F → Item → option F;
  copy : F → F
}.

(** [system::ISynchronizer]: a binary lock, free or held by a command. *)
Inductive lock_state : Type :=
  | Free
  | Held (owner : nat).

Global Instance lock_state_eq_dec : EqDecision lock_state.
Proof. solve_decision. Defined.

(** Where a command was when an exception left [execute]. *)
Inductive raise_site : Type :=
  | InGet                     (* [_it->get] raised *)
  | InCall (i : nat).         (* the functor raised on [items[i]] *)

Global Instance raise_site_eq_dec : EqDecision raise_site.
Proof. solve_decision. Defined.

(** Program points of [IteratorCommand::execute]. *)
Inductive point : Type :=
  | AtLock                    (* before [_synchro.lock ()] *)
  | AtGet                     (* before [isRunning = _it->get (items)] *)
  | AtUnlock                  (* before [_synchro.unlock ()] *)
  | AtCall (i : nat)          (* inner loop, before the test [i<items.size()] *)
  | Done                      (* [execute] has returned *)
  | Raised (site : raise_site). (* an exception has left [execute] *)

Global Instance point_eq_dec : EqDecision point.
Proof. solve_decision. Defined.

(** The attributes of [IteratorCommand]; [_it] is the one iterator of the
    world, [_fct] the address of the functor, [_synchro] the identity of the
    synchronizer. *)
Record IteratorCommand : Type := {
  _fct : nat;
  _synchro : nat;
  _groupSize : nat
}.

Section Dispatcher.

Context {Item Src F : Type}.
Context `{!Iterator Item Src} `{!Functor Item F} `{!Inhabited Item}.

(** Events recorded by the steps.  [i] is the index of the command in the
    vector given to [dispatchCommands], [s] a synchronizer, [a] the address
    of a functor. *)
Inductive Event : Type :=
  | EvNewSynchro (s : nat)
  | EvDeleteSynchro (s : nat)
  | EvReset
  | EvDispatch (n : nat)
  | EvLock (i s : nat)
  | EvGet (i : nat) (batch : list Item) (more : bool)
  | EvGetRaise (i : nat)
  | EvUnlock (i s : nat)
  | EvCall (i a : nat) (x : Item)
  | EvCallRaise (i a : nat) (x : Item)
  | EvNewFunctor (a : nat)
  | EvDeleteFunctor (a : nat).

(** The objects a call of [iterate] works on: the iterator, the live
    synchronizers (with the number of synchronizers created so far, which
    names the next one) and the live functors. *)
Record World : Type := {
  source : Src;
  synchros : gmap nat lock_state;
  synchro_next : nat;
  functors : gmap nat F
}.

(** The local variables of a running [execute]. *)
Record Frame : Type := {
  at_point : point;
  items : list Item;
  isRunning : bool
}.

(** [std::vector<Item> items (_groupSize);  for (bool isRunning=true; ...] *)
Definition execute_start (c : IteratorCommand) : Frame :=
  {| at_point := AtLock;
     items := replicate (_groupSize c) inhabitant;
     isRunning := true |}.

(** One step of [execute] for the command of index [i].  [None]: the command
    cannot move (it waits for the synchronizer, or it has terminated).  An
    invocation through the address of a functor that is not alive ends the
    command as a raise of the functor does. *)
Definition execute_step (c : IteratorCommand) (i : nat) (fr : Frame) (w : World)
  : option (Frame * World * list Event) :=
  match at_point fr with
  | AtLock =>
      match synchros w !! _synchro c with
      | Some Free =>
          Some ({| at_point := AtGet; items := items fr; isRunning := isRunning fr |},
                {| source := source w;
                   synchros := <[_synchro c := Held i]> (synchros w);
                   synchro_next := synchro_next w;
                   functors := functors w |},
                [EvLock i (_synchro c)])
      | _ => None
      end
  | AtGet =>
      match get (source w) (items fr) with
      | GetOk its more src' =>
          Some ({| at_point := AtUnlock; items := its; isRunning := more |},
                {| source := src';
                   synchros := synchros w;
                   synchro_next := synchro_next w;
                   functors := functors w |},
                [EvGet i its more])
      | GetRaise src' =>
          Some ({| at_point := Raised InGet; items := items fr; isRunning := isRunning fr |},
                {| source := src';
                   synchros := synchros w;
                   synchro_next := synchro_next w;
                   functors := functors w |},
                [EvGetRaise i])
      end
  | AtUnlock =>
      Some ({| at_point := AtCall 0; items := items fr; isRunning := isRunning fr |},
            {| source := source w;
               synchros := <[_synchro c := Free]> (synchros w);
               synchro_next := synchro_next w;
               functors := functors w |},
            [EvUnlock i (_synchro c)])
  | AtCall j =>
      match items fr !! j with
      | Some x =>
          match functors w !! _fct c ≫= (λ f, call f x) with
          | Some f' =>
              Some ({| at_point := AtCall (S j); items := items fr; isRunning := isRunning fr |},
                    {| source := source w;
                       synchros := synchros w;
                       synchro_next := synchro_next w;
                       functors := <[_fct c := f']> (functors w) |},
                    [EvCall i (_fct c) x])
          | None =>
              Some ({| at_point := Raised (InCall j); items := items fr; isRunning := isRunning fr |},
                    w, [EvCallRaise i (_fct c) x])
          end
      | None =>
          Some ({| at_point := if isRunning fr then AtLock else Done;
                   items := items fr; isRunning := isRunning fr |},
                w, [])
      end
  | Done | Raised _ => None
  end.

(** The seven moves of [execute], as a relation. *)
Inductive Step (c : IteratorCommand) (i : nat) (w : World)
  : Frame → Frame → World → list Event → Prop :=
  | StepLock its run :
      synchros w !! _synchro c = Some Free →
      Step c i w (Build_Frame AtLock its run) (Build_Frame AtGet its run)
        (Build_World (source w) (<[_synchro c := Held i]> (synchros w))
           (synchro_next w) (functors w))
        [EvLock i (_synchro c)]
  | StepGet its run its' more src' :
      get (source w) its = GetOk its' more src' →
      Step c i w (Build_Frame AtGet its run) (Build_Frame AtUnlock its' more)
        (Build_World src' (synchros w) (synchro_next w) (functors w))
        [EvGet i its' more]
  | StepGetRaise its run src' :
      get (source w) its = GetRaise src' →
      Step c i w (Build_Frame AtGet its run) (Build_Frame (Raised InGet) its run)
        (Build_World src' (synchros w) (synchro_next w) (functors w))
        [EvGetRaise i]
  | StepUnlock its run :
      Step c i w (Build_Frame AtUnlock its run) (Build_Frame (AtCall 0) its run)
        (Build_World (source w) (<[_synchro c := Free]> (synchros w))
           (synchro_next w) (functors w))
        [EvUnlock i (_synchro c)]
  | StepCall its run j x f f' :
      its !! j = Some x → functors w !! _fct c = Some f → call f x = Some f' →
      Step c i w (Build_Frame (AtCall j) its run) (Build_Frame (AtCall (S j)) its run)
        (Build_World (source w) (synchros w) (synchro_next w)
           (<[_fct c := f']> (functors w)))
        [EvCall i (_fct c) x]
  | StepCallRaise its run j x :
      its !! j = Some x → functors w !! _fct c ≫= (λ f, call f x) = None →
      Step c i w (Build_Frame (AtCall j) its run) (Build_Frame (Raised (InCall j)) its run)
        w [EvCallRaise i (_fct c) x]
  | StepLoop its run j :
      its !! j = None →
      Step c i w (Build_Frame (AtCall j) its run)
        (Build_Frame (if run then AtLock else Done) its run) w [].

(** The state of a dispatch: one frame per command, the world, the trace. *)
Record DispatchState : Type := {
  frames : list Frame;
  world : World;
  trace : list Event
}.

(** The command [i] is given the processor for one step. *)
Definition schedule_one (cmds : list IteratorCommand) (st : DispatchState) (i : nat)
  : DispatchState :=
  match cmds !! i, frames st !! i with
  | Some c, Some fr =>
      match execute_step c i fr (world st) with
      | Some (fr', w', evs) =>
          {| frames := <[i := fr']> (frames st); world := w'; trace := trace st ++ evs |}
      | None => st
      end
  | _, _ => st
  end.

Definition run_schedule (cmds : list IteratorCommand) (sched : list nat)
  (st : DispatchState) : DispatchState :=
  foldl (schedule_one cmds) st sched.

Definition finished (fr : Frame) : bool := bool_decide (at_point fr = Done).

Definition terminated (fr : Frame) : bool :=
  match at_point fr with Done | Raised _ => true | _ => false end.

(** How a dispatch, and then [iterate], ends. *)
Inductive Outcome : Type :=
  | Returned (w : World) (tr : list Event)
      (* every command has returned, and so has the call *)
  | Failed (w : World) (tr : list Event)
      (* every command has terminated, one at least by an exception *)
  | Unfinished (w : World) (tr : list Event).
      (* the schedule ends while a command is still running or waiting *)

(** The backend behind the pure virtual methods of [ICommandDispatcher]. *)
Record ICommandDispatcher : Type := {
  getExecutionUnitsNumber : nat;
  schedule : list nat
}.

(** The state in which a dispatch starts: every command is at the beginning
    of its [execute]. *)
Definition dispatch_start (cmds : list IteratorCommand) (w : World) (tr : list Event)
  : DispatchState :=
  {| frames := execute_start <$> cmds; world := w;
     trace := tr ++ [EvDispatch (length cmds)] |}.

(** Modelled from the spec: [dispatchCommands] is pure virtual in
    ICommand.hpp.  The spec (4.1) has it run every command to completion,
    serially or concurrently, and return only after all have finished: the
    steps of the commands are interleaved as the backend's schedule says.
    When the schedule ends before the commands, or when a command has
    raised, the call does not return as [iterate] expects: the state reached
    is handed over as it is. *)
Definition dispatchCommands (d : ICommandDispatcher) (cmds : list IteratorCommand)
  (w : World) (tr : list Event) : Outcome :=
  let st := run_schedule cmds (schedule d) (dispatch_start cmds w tr) in
  if forallb finished (frames st) then Returned (world st) (trace st)
  else if forallb terminated (frames st) then Failed (world st) (trace st)
  else Unfinished (world st) (trace st).

(** Modelled from the spec: [newSynchro] is a pure virtual factory in
    ICommand.hpp ("return the created synchronizer"); each call makes a new,
    free synchronizer, named by the count of those made before. *)
Definition newSynchro (w : World) : nat * World :=
  (synchro_next w,
   {| source := source w;
      synchros := <[synchro_next w := Free]> (synchros w);
      synchro_next := S (synchro_next w);
      functors := functors w |}).

Definition delete_synchro (s : nat) (w : World) : World :=
  {| source := source w;
     synchros := delete s (synchros w);
     synchro_next := synchro_next w;
     functors := functors w |}.

Definition reset_source (w : World) : World :=
  {| source := reset (source w);
     synchros := synchros w;
     synchro_next := synchro_next w;
     functors := functors w |}.

(** [new IteratorCommand<Item,Functor> (iterator, *it, *synchro, groupSize)]
    for each functor of the vector. *)
Definition commands (fcts : list nat) (s groupSize : nat) : list IteratorCommand :=
  (λ a, {| _fct := a; _synchro := s; _groupSize := groupSize |}) <$> fcts.

(** [iterate (Iterator<Item>*, std::vector<Functor*>&, size_t groupSize)]:
    the synchronizer is deleted once [dispatchCommands] has returned. *)
Definition iterate (d : ICommandDispatcher) (fcts : list nat) (groupSize : nat)
  (w : World) : Outcome :=
  let '(synchro, w1) := newSynchro w in
  let cmds := commands fcts synchro groupSize in
  let w2 := reset_source w1 in
  match dispatchCommands d cmds w2 [EvNewSynchro synchro; EvReset] with
  | Returned w3 tr => Returned (delete_synchro synchro w3) (tr ++ [EvDeleteSynchro synchro])
  | other => other
  end.

(** [new Functor (functor)]: the copy is placed at an address not in use. *)
Definition new_functor (f : F) (h : gmap nat F) : nat * gmap nat F :=
  let a := fresh (dom h) in (a, <[a := copy f]> h).

(** [for (i=0; i<functors.size(); i++) functors[i] = new Functor (functor);] *)
Fixpoint new_functors (n : nat) (f : F) (h : gmap nat F) : list nat * gmap nat F :=
  match n with
  | 0 => ([], h)
  | S n' =>
      let '(a, h1) := new_functor f h in
      let '(l, h2) := new_functors n' f h1 in
      (a :: l, h2)
  end.

(** [for (i=0; i<functors.size(); i++) delete functors[i];] *)
Definition delete_functors (l : list nat) (h : gmap nat F) : gmap nat F :=
  foldl (λ h a, delete a h) h l.

Definition with_functors (w : World) (h : gmap nat F) : World :=
  {| source := source w;
     synchros := synchros w;
     synchro_next := synchro_next w;
     functors := h |}.

(** [iterate (Iterator<Item>*, const Functor& functor, size_t groupSize)]:
    [functor] is the address of the caller's functor. *)
Definition iterate_functor (d : ICommandDispatcher) (functor : nat) (groupSize : nat)
  (w : World) : option Outcome :=
  f ← functors w !! functor;
  let '(fcts, h) := new_functors (getExecutionUnitsNumber d) f (functors w) in
  Some
    match iterate d fcts groupSize (with_functors w h) with
    | Returned w' tr =>
        Returned (with_functors w' (delete_functors fcts (functors w')))
                 ((EvNewFunctor <$> fcts) ++ tr ++ (EvDeleteFunctor <$> fcts))
    | Failed w' tr => Failed w' ((EvNewFunctor <$> fcts) ++ tr)
    | Unfinished w' tr => Unfinished w' ((EvNewFunctor <$> fcts) ++ tr)
    end.

(** The state reached inside [iterate] once the schedule [sched] has been
    played: what [iterate] looks at when [dispatchCommands] ends. *)
Definition iterate_state (sched : list nat) (fcts : list nat) (groupSize : nat)
  (w : World) : DispatchState :=
  run_schedule (commands fcts (synchro_next w) groupSize) sched
    (dispatch_start (commands fcts (synchro_next w) groupSize)
       (reset_source (newSynchro w).2) [EvNewSynchro (synchro_next w); EvReset]).

(** ** Reading a trace *)

(** The command an event belongs to, if any. *)
Definition event_command (e : Event) : option nat :=
  match e with
  | EvLock i _ | EvGet i _ _ | EvGetRaise i | EvUnlock i _
  | EvCall i _ _ | EvCallRaise i _ _ => Some i
  | _ => None
  end.

(** The events of the command [i], in order. *)
Definition command_events (i : nat) (tr : list Event) : list Event :=
  filter (λ e, event_command e = Some i) tr.

(** The items passed to functors, in the order of the invocations. *)
Definition called_items (tr : list Event) : list Item :=
  omap (λ e, match e with EvCall _ _ x | EvCallRaise _ _ x => Some x | _ => None end) tr.

(** The events of one turn of the loop of [execute] that fetched [batch]. *)
Definition turn (c : IteratorCommand) (i : nat) (batch : list Item) (more : bool)
  : list Event :=
  [EvLock i (_synchro c); EvGet i batch more; EvUnlock i (_synchro c)]
  ++ (EvCall i (_fct c) <$> batch).

(** The events of the turn a frame is in, up to its program point. *)
Definition turn_so_far (c : IteratorCommand) (i : nat) (fr : Frame) : list Event :=
  match at_point fr with
  | AtLock => []
  | AtGet => [EvLock i (_synchro c)]
  | AtUnlock => [EvLock i (_synchro c); EvGet i (items fr) (isRunning fr)]
  | AtCall j =>
      [EvLock i (_synchro c); EvGet i (items fr) (isRunning fr); EvUnlock i (_synchro c)]
      ++ (EvCall i (_fct c) <$> take j (items fr))
  | Done => turn c i (items fr) false
  | Raised InGet => [EvLock i (_synchro c); EvGetRaise i]
  | Raised (InCall j) =>
      [EvLock i (_synchro c); EvGet i (items fr) (isRunning fr); EvUnlock i (_synchro c)]
      ++ (EvCall i (_fct c) <$> take j (items fr))
      ++ match items fr !! j with Some x => [EvCallRaise i (_fct c) x] | None => [] end
  end.

Definition outcome_world (o : Outcome) : World :=
  match o with Returned w _ | Failed w _ | Unfinished w _ => w end.

Definition outcome_trace (o : Outcome) : list Event :=
  match o with Returned _ tr | Failed _ tr | Unfinished _ tr => tr end.

(** The synchronizer an event is about, if any. *)
Definition event_synchro (e : Event) : option nat :=
  match e with
  | EvNewSynchro s | EvDeleteSynchro s | EvLock _ s | EvUnlock _ s => Some s
  | _ => None
  end.

Definition trace_synchros (tr : list Event) : list nat := omap event_synchro tr.

(** The functor an event invokes, if any. *)
Definition event_functor (e : Event) : option nat :=
  match e with
  | EvCall _ a _ | EvCallRaise _ a _ => Some a
  | _ => None
  end.

(** An event of a command of the dispatch made for the functors [fcts] with
    the synchronizer [s]: it locks and unlocks [s] only, and it invokes the
    functor of its own command only. *)
Definition command_event_ok (fcts : list nat) (s : nat) (e : Event) : Prop :=
  match e with
  | EvLock i s' | EvUnlock i s' => s' = s
  | EvCall i a _ | EvCallRaise i a _ => fcts !! i = Some a
  | EvGet _ _ _ | EvGetRaise _ => True
  | _ => False
  end.

(** The functors a trace creates, and those it deletes, in order. *)
Definition created_functors (tr : list Event) : list nat :=
  omap (λ e, match e with EvNewFunctor a => Some a | _ => None end) tr.

Definition deleted_functors (tr : list Event) : list nat :=
  omap (λ e, match e with EvDeleteFunctor a => Some a | _ => None end) tr.

(** The fetches of the command [i] that returned: the batch and the
    boolean, in order. *)
Definition fetches (i : nat) (tr : list Event) : list (list Item * bool) :=
  omap (λ e, match e with
             | EvGet j b more => if decide (j = i) then Some (b, more) else None
             | _ => None
             end) tr.

(** The batch of the first fetch of the trace that returned, whichever
    command made it. *)
Definition first_fetch (tr : list Event) : option (list Item) :=
  head (omap (λ e, match e with EvGet _ b _ => Some b | _ => None end) tr).

Definition is_nonempty_get (e : Event) : bool :=
  match e with EvGet _ (_ :: _) _ => true | _ => false end.

(** The number of fetches that returned at least one item. *)
Definition nonempty_fetches (tr : list Event) : nat :=
  length (filter (λ e, is_nonempty_get e = true) tr).

(** Whether a command at this point holds the synchronizer. *)
Definition holding (p : point) : bool :=
  match p with
  | AtGet | AtUnlock | Raised InGet => true
  | _ => false
  end.

(** The synchronizer [s] is free or held by a command of the dispatch, and
    the command that holds it is the one between [lock] and [unlock]. *)
Definition lock_inv (s : nat) (st : DispatchState) : Prop :=
  (synchros (world st) !! s = Some Free ∨
   ∃ k, synchros (world st) !! s = Some (Held k) ∧ k < length (frames st))
  ∧ ∀ i fr, frames st !! i = Some fr →
      (holding (at_point fr) = true ↔ synchros (world st) !! s = Some (Held i)).

(** What a command has done so far: complete turns of its loop, each ended
    with [isRunning] true, then the turn it is in. *)
Definition script_inv (cmds : list IteratorCommand) (st : DispatchState) : Prop :=
  ∀ i c fr, cmds !! i = Some c → frames st !! i = Some fr →
    ∃ batches : list (list Item),
      command_events i (trace st)
      = (batches ≫= λ b, turn c i b true) ++ turn_so_far c i fr.

(** The items the functor of the command [i] has been invoked on and has
    returned from, in order. *)
Definition command_calls (i : nat) (tr : list Event) : list Item :=
  omap (λ e, match e with
             | EvCall j _ x => if decide (j = i) then Some x else None
             | _ => None
             end) tr.

(** A functor applied to the items of a list, one after the other. *)
Definition apply_calls (f : F) (xs : list Item) : option F :=
  foldl (λ acc x, acc ≫= λ g, call g x) (Some f) xs.

(** The batches fetched, whichever command fetched them, in the order of the
    fetches. *)
Definition fetched_batches (tr : list Event) : list (list Item) :=
  omap (λ e, match e with EvGet _ b _ => Some b | _ => None end) tr.

Definition is_lock (e : Event) : bool :=
  match e with EvLock _ _ => true | _ => false end.

(** The number of times the synchronizer has been locked. *)
Definition lock_count (tr : list Event) : nat :=
  length (filter (λ e, is_lock e = true) tr).

(** Whether a call has returned; whether its dispatch has completed, every
    command having terminated, by a return or by an exception. *)
Definition returned (o : Outcome) : bool :=
  match o with Returned _ _ => true | _ => false end.

Definition completed (o : Outcome) : bool :=
  match o with Unfinished _ _ => false | _ => true end.

(** The first fetch of the command [i] has returned no item, and false. *)
Definition starved (i : nat) (tr : list Event) : Prop :=
  head (fetches i tr) = Some ([], false).

(** The index of the loop over the fetched items stays within the vector,
    an exception of the functor has gone out of an invocation on an item of
    the vector, and [execute] has returned with [isRunning] false. *)
Definition call_inv (st : DispatchState) : Prop :=
  ∀ i fr, frames st !! i = Some fr →
    match at_point fr with
    | AtCall j => j ≤ length (items fr)
    | Raised (InCall j) => j < length (items fr)
    | Done => isRunning fr = false
    | _ => True
    end.

End Dispatcher.

(** ** Three statements of the specification *)

(** What the specification says of a failed fetch: a command out of which
    the exception of [get] has gone does not hold the synchronizer. *)
Definition released_on_fetch_failure {Item Src F : Type}
  (s : nat) (st : @DispatchState Item Src F) : Prop :=
  ∀ i fr, frames st !! i = Some fr → at_point fr = Raised InGet →
    synchros (world st) !! s ≠ Some (Held i).

(** What the specification says of a bad configuration: [iterate] reports an
    error, and nothing has been dispatched. *)
Definition configuration_error {Item Src F : Type} (o : @Outcome Item Src F) : Prop :=
  ∃ w tr, o = Failed w tr ∧ ∀ n, EvDispatch n ∉ tr.

(** What the specification says of the synchronizer of a call: once the
    dispatch has completed, [iterate] has destroyed it. *)
Definition destroyed_after_dispatch {Item Src F : Type}
  (s : nat) (o : @Outcome Item Src F) : Prop :=
  completed o = true → synchros (outcome_world o) !! s = None.

(** ** A sequential source *)

(** Modelled from the spec: [Iterator<Item>] is declared in Iterator.hpp,
    which is not among the sources.  The spec (2, 3) has the source own a
    cursor over an ordered sequence, [reset] put the cursor back to the
    start, and the batched fetch retrieve up to a maximum number of items
    (here the size of the vector it is given) and report whether more
    remain. *)
Record SequentialSource (Item : Type) : Type := {
  content : list Item;
  cursor : nat
}.
Arguments content {Item} s.
Arguments cursor {Item} s.

Global Instance SequentialSource_Iterator {Item : Type}
  : Iterator Item (SequentialSource Item) := {|
  reset s := {| content := content s; cursor := 0 |};
  get s current :=
    let batch := take (length current) (drop (cursor s) (content s)) in
    let cursor' := cursor s + length batch in
    GetOk batch (bool_decide (cursor' < length (content s)))
      {| content := content s; cursor := cursor' |}
|}.

Section SequentialDefinitions.

Context {Item F : Type}.
Context `{!Functor Item F} `{!Inhabited Item}.

(** The items a command has fetched and not yet passed to its functor. *)
Definition pending (fr : @Frame Item) : list Item :=
  match at_point fr with
  | AtUnlock => items fr
  | AtCall j => drop j (items fr)
  | _ => []
  end.

Definition raised (fr : @Frame Item) : bool :=
  match at_point fr with Raised _ => true | _ => false end.

(** While no command has raised, the items passed to the functors and those
    still pending in the frames are the items the cursor has gone past. *)
Definition partition_inv (l : list Item)
  (st : @DispatchState Item (SequentialSource Item) F) : Prop :=
  content (source (world st)) = l ∧
  cursor (source (world st)) ≤ length l ∧
  (∀ i fr, frames st !! i = Some fr → at_point fr = Done → isRunning fr = false) ∧
  (∀ i fr, frames st !! i = Some fr → isRunning fr = false →
     cursor (source (world st)) = length l) ∧
  (Forall (λ fr, raised fr = false) (frames st) →
     called_items (trace st) ++ concat (pending <$> frames st)
     ≡ₚ take (cursor (source (world st))) l).

(** Until a fetch has returned, the cursor is where [reset] has put it and
    the vectors are as [execute] has made them; the first fetch that returns
    has the first items of the source. *)
Definition first_fetch_inv (l : list Item) (G : nat)
  (st : @DispatchState Item (SequentialSource Item) F) : Prop :=
  match first_fetch (trace st) with
  | Some b => b = take G l
  | None =>
      source (world st) = {| content := l; cursor := 0 |} ∧
      Forall (λ fr, length (items fr) = G) (frames st)
  end.

(** The least number of fetches of [G] items that exhaust [N] items. *)
Definition ceil_div (N G : nat) : nat := (N + G - 1) / G.

(** The fetches that returned items so far were full, but possibly the one
    that reached the end of the source; and a fetch that reports that more
    items remain has returned some. *)
Definition fetch_inv (G : nat) (st : @DispatchState Item (SequentialSource Item) F) : Prop :=
  (cursor (source (world st)) < length (content (source (world st))) →
     nonempty_fetches (trace st) * G ≤ cursor (source (world st))) ∧
  nonempty_fetches (trace st) * G < cursor (source (world st)) + G ∧
  Forall (λ e, match e with EvGet _ b true => b ≠ [] | _ => True end) (trace st).

(** An upper bound on the number of steps a command still has to make in
    its current turn (and the next one, if it will loop); [measure] adds what
    the items still in the source may cost. *)
Definition weight (G : nat) (fr : @Frame Item) : nat :=
  match at_point fr with
  | AtLock => G + 4
  | AtGet => G + 3
  | AtUnlock => length (items fr) + 2 + (if isRunning fr then G + 4 else 0)
  | AtCall j => (length (items fr) - j) + 1 + (if isRunning fr then G + 4 else 0)
  | Done | Raised _ => 0
  end.

Definition measure (G : nat) (st : @DispatchState Item (SequentialSource Item) F) : nat :=
  sum_list (weight G <$> frames st)
  + (length (content (source (world st))) - cursor (source (world st))) * (G + 4).

(** A frame of a command that has not raised: the vector never grows, it is
    full as long as [isRunning] holds, and [isRunning] holds at the head of
    the loop. *)
Definition frame_ok (G : nat) (fr : @Frame Item) : Prop :=
  raised fr = false ∧
  length (items fr) ≤ G ∧
  (isRunning fr = true → length (items fr) = G) ∧
  match at_point fr with AtLock | AtGet => isRunning fr = true | _ => True end.

(** What holds of a dispatch over a sequential source with functors that do
    not raise: enough for some command to be able to move until all are
    done. *)
Definition live_inv (fcts : list nat) (s G : nat)
  (st : @DispatchState Item (SequentialSource Item) F) : Prop :=
  lock_inv s st ∧
  length (frames st) = length fcts ∧
  cursor (source (world st)) ≤ length (content (source (world st))) ∧
  (∀ a, a ∈ fcts → is_Some (functors (world st) !! a)) ∧
  Forall (frame_ok G) (frames st).

(** The batches fetched so far are, end to end and in the order of the
    fetches, the items the cursor has gone past, and none is longer than the
    group size. *)
Definition slices_inv (l : list Item) (G : nat)
  (st : @DispatchState Item (SequentialSource Item) F) : Prop :=
  content (source (world st)) = l ∧
  concat (fetched_batches (trace st)) = take (cursor (source (world st))) l ∧
  Forall (λ b, length b ≤ G) (fetched_batches (trace st)) ∧
  Forall (λ fr, length (items fr) ≤ G) (frames st).

(** A frame over a sequential source, whose functor may have raised: as
    [frame_ok], but for a command out of which an exception of its functor
    has gone; no exception of [get] ever has. *)
Definition frame_sound (G : nat) (fr : @Frame Item) : Prop :=
  match at_point fr with
  | Raised InGet => False
  | Raised (InCall _) => True
  | _ =>
      length (items fr) ≤ G ∧
      (isRunning fr = true → length (items fr) = G) ∧
      match at_point fr with AtLock | AtGet => isRunning fr = true | _ => True end
  end.

Definition sound_inv (fcts : list nat) (s G : nat)
  (st : @DispatchState Item (SequentialSource Item) F) : Prop :=
  lock_inv s st ∧
  length (frames st) = length fcts ∧
  cursor (source (world st)) ≤ length (content (source (world st))) ∧
  Forall (frame_sound G) (frames st).

End SequentialDefinitions.

(** ** Functors and backends to run the protocol on *)

(** A functor that sums the items it is given into a private counter. *)
Global Instance sum_functor : Functor nat nat := {|
  call acc x := Some (acc + x);
  copy acc := acc
|}.

(** An iterator whose [get] raises: a source access failure. *)
Global Instance failing_iterator : Iterator nat unit := {|
  reset s := s;
  get s current := GetRaise s
|}.

(** A functor that raises on every item: a routine failure. *)
Global Instance raising_functor : Functor nat unit := {|
  call _ _ := None;
  copy u := u
|}.

(** A serial backend: each command in turn is given [fuel] steps. *)
Definition serial_dispatcher (n fuel : nat) : ICommandDispatcher :=
  {| getExecutionUnitsNumber := 1;
     schedule := seq 0 n ≫= replicate fuel |}.

(** A parallel backend with [units] execution units, that gives the
    commands one step each, in turn, [rounds] times. *)
Definition round_robin_dispatcher (units n rounds : nat) : ICommandDispatcher :=
  {| getExecutionUnitsNumber := units;
     schedule := mjoin (replicate rounds (seq 0 n)) |}.

(** * Properties *)

(** ** Two runs *)

(** Five items, groups of ten, three commands that are given one step each
    in turn: the first command fetches everything, the two others find the
    source exhausted. *)
Example run_five_items :
  let w := {| source := {| content := [1; 2; 3; 4; 5]; cursor := 3 |};
              synchros := ∅; synchro_next := 0;
              functors := {[ 0 := 0; 1 := 0; 2 := 0 ]} |} in
  let o := iterate (round_robin_dispatcher 3 3 20) [0; 1; 2] 10 w in
  outcome_trace o
  = [EvNewSynchro 0; EvReset; EvDispatch 3;
     EvLock 0 0; EvGet 0 [1; 2; 3; 4; 5] false; EvUnlock 0 0;
     EvLock 1 0; EvCall 0 0 1; EvGet 1 [] false; EvCall 0 0 2; EvUnlock 1 0;
     EvLock 2 0; EvCall 0 0 3; EvGet 2 [] false; EvCall 0 0 4; EvUnlock 2 0;
     EvCall 0 0 5; EvDeleteSynchro 0] ∧
  (λ a, functors (outcome_world o) !! a) <$> [0; 1; 2] = [Some 15; Some 0; Some 0].
Proof. vm_compute. done. Qed.

(** The integers below 20, groups of 5, four copies of a summing functor
    made by the overload for one functor: the private sums add up to the sum
    of the integers below 20, and the copies are gone. *)
Example run_sums :
  let w := {| source := {| content := seq 0 20; cursor := 0 |};
              synchros := ∅; synchro_next := 0;
              functors := {[ 0 := 0 ]} |} in
  let d := round_robin_dispatcher 4 4 40 in
  let fcts := (new_functors 4 0 (functors w)).1 in
  let o := iterate d fcts 5 (with_functors w (new_functors 4 0 (functors w)).2) in
  (λ a, functors (outcome_world o) !! a) <$> fcts = [Some 10; Some 35; Some 60; Some 85] ∧
  10 + 35 + 60 + 85 = sum_list (seq 0 20) ∧
  outcome_world <$> iterate_functor d 0 5 w
  = Some {| source := {| content := seq 0 20; cursor := 20 |};
            synchros := ∅; synchro_next := 1;
            functors := {[ 0 := 0 ]} |}.
Proof. vm_compute. done. Qed.

Section Protocol.

Context {Item Src F : Type}.
Context `{!Iterator Item Src} `{!Functor Item F} `{!Inhabited Item}.

Implicit Types (st : @DispatchState Item Src F) (w : @World Src F)
  (fr : @Frame Item) (tr : list (@Event Item)) (c : IteratorCommand).

Lemma run_schedule_snoc cmds sched i st :
  run_schedule cmds (sched ++ [i]) st = schedule_one cmds (run_schedule cmds sched st) i.
Proof. unfold run_schedule. by rewrite foldl_app. Qed.

Lemma run_schedule_app cmds sched1 sched2 st :
  run_schedule cmds (sched1 ++ sched2) st
  = run_schedule cmds sched2 (run_schedule cmds sched1 st).
Proof. unfold run_schedule. by rewrite foldl_app. Qed.

Lemma run_schedule_nil sched st : run_schedule [] sched st = st.
Proof.
  revert st. induction sched as [|i sched IH]; intros st; simpl; [done|].
  unfold schedule_one. rewrite lookup_nil. apply IH.
Qed.

(** An invariant of the steps is an invariant of the runs. *)
Lemma run_schedule_invariant (P : DispatchState → Prop) cmds :
  (∀ st i, P st → P (schedule_one cmds st i)) →
  ∀ sched st, P st → P (run_schedule cmds sched st).
Proof. intros Hstep sched. induction sched; simpl; auto. Qed.

Lemma execute_step_Step c i fr w fr' w' evs :
  execute_step c i fr w = Some (fr', w', evs) → Step c i w fr fr' w' evs.
Proof.
  destruct fr as [p its run]. unfold execute_step. simpl.
  destruct p; intros Hs; repeat case_match; simplify_eq;
    try match goal with H : _ ≫= _ = Some _ |- _ =>
      apply bind_Some in H as (? & ? & ?) end;
    econstructor; eauto.
Qed.

Lemma Step_execute_step c i fr w fr' w' evs :
  Step c i w fr fr' w' evs → execute_step c i fr w = Some (fr', w', evs).
Proof.
  destruct 1; unfold execute_step; simpl;
    repeat match goal with H : _ = _ |- _ => rewrite H; simpl end; done.
Qed.

(** What [schedule_one] does: nothing, or one move of the command [i]. *)
Lemma schedule_one_cases cmds st i :
  schedule_one cmds st i = st ∨
  ∃ c fr fr' w' evs,
    cmds !! i = Some c ∧ frames st !! i = Some fr ∧
    Step c i (world st) fr fr' w' evs ∧
    schedule_one cmds st i
    = {| frames := <[i := fr']> (frames st); world := w'; trace := trace st ++ evs |}.
Proof.
  unfold schedule_one.
  destruct (cmds !! i) as [c|] eqn:Hc; [|by left].
  destruct (frames st !! i) as [fr|] eqn:Hfr; [|by left].
  destruct (execute_step c i fr (world st)) as [[[fr' w'] evs]|] eqn:Hs; [|by left].
  right. exists c, fr, fr', w', evs. eauto using execute_step_Step.
Qed.

Lemma commands_lookup fcts s G i c :
  commands fcts s G !! i = Some c →
  ∃ a, fcts !! i = Some a ∧ c = {| _fct := a; _synchro := s; _groupSize := G |}.
Proof.
  unfold commands. rewrite list_lookup_fmap.
  destruct (fcts !! i) as [a|]; simpl; [|done]. intros [= <-]. eauto.
Qed.

Lemma commands_synchro fcts s G i c :
  commands fcts s G !! i = Some c → _synchro c = s.
Proof. intros (a & _ & ->)%commands_lookup. done. Qed.

Lemma lookup_insert_frame (l : list (@Frame Item)) i fr0 fr' j fr :
  l !! i = Some fr0 → <[i := fr']> l !! j = Some fr →
  (j = i ∧ fr = fr') ∨ (j ≠ i ∧ l !! j = Some fr).
Proof.
  intros Hi Hj. destruct (decide (j = i)) as [->|Hne].
  - left. rewrite list_lookup_insert_eq in Hj by eauto using lookup_lt_Some.
    by simplify_eq.
  - right. by rewrite list_lookup_insert_ne in Hj.
Qed.

(** ** What [iterate] returns *)

Lemma forallb_finished (xs : list (@Frame Item)) :
  forallb finished xs = true ↔ Forall (λ fr, at_point fr = Done) xs.
Proof.
  induction xs as [|fr xs IH]; simpl.
  - split; [constructor|done].
  - rewrite andb_true_iff, IH, Forall_cons. unfold finished.
    by rewrite bool_decide_eq_true.
Qed.

Lemma iterate_unfold d fcts G w :
  iterate d fcts G w
  = let st := iterate_state (schedule d) fcts G w in
    if forallb finished (frames st)
    then Returned (delete_synchro (synchro_next w) (world st))
           (trace st ++ [EvDeleteSynchro (synchro_next w)])
    else if forallb terminated (frames st) then Failed (world st) (trace st)
    else Unfinished (world st) (trace st).
Proof.
  unfold iterate, dispatchCommands, iterate_state. simpl.
  destruct (forallb finished _); [done|]. by destruct (forallb terminated _).
Qed.

Lemma iterate_Returned d fcts G w w' tr :
  iterate d fcts G w = Returned w' tr ↔
  Forall (λ fr, at_point fr = Done) (frames (iterate_state (schedule d) fcts G w)) ∧
  w' = delete_synchro (synchro_next w) (world (iterate_state (schedule d) fcts G w)) ∧
  tr = trace (iterate_state (schedule d) fcts G w) ++ [EvDeleteSynchro (synchro_next w)].
Proof.
  rewrite iterate_unfold. simpl. rewrite <-forallb_finished.
  destruct (forallb finished _); [|destruct (forallb terminated _)].
  - split; [by intros [= <- <-]|by intros (_ & -> & ->)].
  - split; [done|by intros [? _]].
  - split; [done|by intros [? _]].
Qed.

Lemma schedule_one_length cmds st i :
  length (frames (schedule_one cmds st i)) = length (frames st).
Proof.
  destruct (schedule_one_cases cmds st i) as [->|(c & fr & fr' & w' & evs & _ & _ & _ & ->)];
    [done|]. simpl. apply length_insert.
Qed.

Lemma run_schedule_length cmds sched st :
  length (frames (run_schedule cmds sched st)) = length (frames st).
Proof.
  revert st. induction sched as [|i sched IH]; intros st; simpl; [done|].
  by rewrite IH, schedule_one_length.
Qed.

Lemma iterate_state_length sched fcts G w :
  length (frames (iterate_state sched fcts G w)) = length fcts.
Proof.
  unfold iterate_state. rewrite run_schedule_length. simpl.
  unfold commands. by rewrite !length_fmap.
Qed.

(** ** Mutual exclusion *)

Lemma lock_inv_step fcts s G st i :
  lock_inv s st → lock_inv s (schedule_one (commands fcts s G) st i).
Proof.
  intros [Hlock Hfr].
  destruct (schedule_one_cases (commands fcts s G) st i)
    as [->|(c & fr & fr' & w' & evs & Hc & Hi & Hstep & ->)]; [done|].
  apply commands_synchro in Hc.
  pose proof (lookup_lt_Some _ _ _ Hi) as Hlt.
  pose proof (Hfr i fr Hi) as Hme.
  split; simpl.
  - rewrite length_insert.
    inversion Hstep; subst; simpl in *; rewrite ?lookup_insert_eq; eauto.
  - intros j frj Hj.
    destruct (lookup_insert_frame _ _ _ _ _ _ Hi Hj) as [[-> ->]|[Hne Hj']].
    + inversion Hstep; subst; simpl in *; rewrite ?lookup_insert_eq;
        try exact Hme; try (destruct run; exact Hme); by split.
    + pose proof (Hfr j frj Hj') as Hother.
      inversion Hstep; subst; simpl in *; rewrite ?lookup_insert_eq;
        try exact Hother.
      * split; [intros Hx; apply Hother in Hx|]; congruence.
      * pose proof (proj1 Hme eq_refl) as Hheld.
        split; [intros Hx; apply Hother in Hx|]; congruence.
Qed.

Lemma lock_inv_start fcts s G w tr :
  synchros w !! s = Some Free → lock_inv s (dispatch_start (commands fcts s G) w tr).
Proof.
  intros Hs. split; simpl; [by left|].
  intros i fr. rewrite list_lookup_fmap.
  destruct (commands fcts s G !! i); simpl; [|done].
  intros [= <-]. simpl. rewrite Hs. naive_solver.
Qed.

Lemma lock_inv_iterate_state sched fcts G w :
  lock_inv (synchro_next w) (iterate_state sched fcts G w).
Proof.
  unfold iterate_state. apply run_schedule_invariant.
  - intros st i. apply lock_inv_step.
  - apply lock_inv_start. simpl. apply lookup_insert_eq.
Qed.

(** A command that has terminated stays as it is. *)
Lemma terminated_stable cmds sched st i fr :
  frames st !! i = Some fr → terminated fr = true →
  frames (run_schedule cmds sched st) !! i = Some fr.
Proof.
  intros Hi Hterm. revert st Hi.
  induction sched as [|k sched IH]; intros st Hi; simpl; [done|].
  apply IH.
  destruct (schedule_one_cases cmds st k)
    as [->|(c & frk & fr' & w' & evs & Hc & Hk & Hstep & ->)]; [done|].
  simpl. destruct (decide (k = i)) as [->|Hne].
  - simplify_eq. inversion Hstep; subst; done.
  - by rewrite list_lookup_insert_ne.
Qed.

(** ** The shape of the trace, and what a dispatch leaves untouched *)

Lemma Step_event_ok fcts s G i c w fr fr' w' evs :
  commands fcts s G !! i = Some c → Step c i w fr fr' w' evs →
  Forall (command_event_ok fcts s) evs.
Proof.
  intros (a & Ha & ->)%commands_lookup Hstep.
  inversion Hstep; subst; repeat constructor; done.
Qed.

Lemma Step_world c i w fr fr' w' evs :
  Step c i w fr fr' w' evs →
  synchro_next w' = synchro_next w ∧
  (∀ a, a ≠ _fct c → functors w' !! a = functors w !! a) ∧
  (∀ s, s ≠ _synchro c → synchros w' !! s = synchros w !! s).
Proof.
  destruct 1; simpl; split_and!; try done.
  - intros s Hs. by rewrite lookup_insert_ne.
  - intros s Hs. by rewrite lookup_insert_ne.
  - intros a Ha. by rewrite lookup_insert_ne.
Qed.

Lemma iterate_state_trace sched fcts G w :
  ∃ rest,
    trace (iterate_state sched fcts G w)
    = [EvNewSynchro (synchro_next w); EvReset; EvDispatch (length fcts)] ++ rest ∧
    Forall (command_event_ok fcts (synchro_next w)) rest.
Proof.
  unfold iterate_state.
  apply (run_schedule_invariant (λ st, ∃ rest,
    trace st = [EvNewSynchro (synchro_next w); EvReset; EvDispatch (length fcts)] ++ rest ∧
    Forall (command_event_ok fcts (synchro_next w)) rest)).
  - intros st i (rest & Htr & Hok).
    destruct (schedule_one_cases (commands fcts (synchro_next w) G) st i)
      as [->|(c & fr & fr' & w' & evs & Hc & Hi & Hstep & ->)]; [by exists rest|].
    exists (rest ++ evs). simpl. rewrite Htr. split; [done|].
    apply Forall_app. eauto using Step_event_ok.
  - exists []. simpl. unfold commands. by rewrite length_fmap.
Qed.

Lemma iterate_state_world sched fcts G w :
  synchro_next (world (iterate_state sched fcts G w)) = S (synchro_next w) ∧
  (∀ a, a ∉ fcts →
     functors (world (iterate_state sched fcts G w)) !! a = functors w !! a) ∧
  (∀ s, s ≠ synchro_next w →
     synchros (world (iterate_state sched fcts G w)) !! s = synchros w !! s).
Proof.
  unfold iterate_state.
  apply (run_schedule_invariant (λ st,
    synchro_next (world st) = S (synchro_next w) ∧
    (∀ a, a ∉ fcts → functors (world st) !! a = functors w !! a) ∧
    (∀ s, s ≠ synchro_next w → synchros (world st) !! s = synchros w !! s))).
  - intros st i (Hnext & Hfct & Hsyn).
    destruct (schedule_one_cases (commands fcts (synchro_next w) G) st i)
      as [->|(c & fr & fr' & w' & evs & Hc & Hi & Hstep & ->)]; [done|].
    apply commands_lookup in Hc as (a & Ha & ->).
    destruct (Step_world _ _ _ _ _ _ _ Hstep) as (Hn' & Hf' & Hs'). simpl in *.
    split_and!.
    + congruence.
    + intros b Hb. rewrite Hf'; [by apply Hfct|].
      intros ->. by apply Hb, list_elem_of_lookup_2 with i.
    + intros s Hs. rewrite Hs' by done. by apply Hsyn.
  - simpl. split_and!; try done. intros s Hs. by rewrite lookup_insert_ne.
Qed.

Lemma trace_synchros_ok fcts s (tr : list (@Event Item)) :
  Forall (command_event_ok fcts s) tr → Forall (λ x, x = s) (trace_synchros tr).
Proof.
  induction 1 as [|e tr He _ IH]; [constructor|].
  unfold trace_synchros in *. destruct e; simpl in *; try done; by constructor.
Qed.

Lemma iterate_trace d fcts G w :
  ∃ rest,
    outcome_trace (iterate d fcts G w)
    = [EvNewSynchro (synchro_next w); EvReset; EvDispatch (length fcts)] ++ rest.
Proof.
  rewrite iterate_unfold. simpl.
  destruct (iterate_state_trace (schedule d) fcts G w) as (rest & -> & _).
  repeat case_match; simpl; eauto.
Qed.

Lemma iterate_trace_ok d fcts G w :
  ∃ rest,
    outcome_trace (iterate d fcts G w)
    = [EvNewSynchro (synchro_next w); EvReset; EvDispatch (length fcts)] ++ rest ∧
    Forall (λ e, command_event_ok fcts (synchro_next w) e ∨
                 e = EvDeleteSynchro (synchro_next w)) rest.
Proof.
  rewrite iterate_unfold. simpl.
  destruct (iterate_state_trace (schedule d) fcts G w) as (rest & -> & Hok).
  assert (Hok' : Forall (λ e, command_event_ok fcts (synchro_next w) e ∨
                              e = EvDeleteSynchro (synchro_next w)) rest).
  { eapply Forall_impl; [exact Hok|]. naive_solver. }
  destruct (forallb finished _); [|case_match; simpl; eauto].
  exists (rest ++ [EvDeleteSynchro (synchro_next w)]). split; [done|].
  apply Forall_app. split; [done|]. constructor; [by right|constructor].
Qed.

Lemma iterate_functors d fcts G w :
  functors (outcome_world (iterate d fcts G w))
  = functors (world (iterate_state (schedule d) fcts G w)).
Proof. rewrite iterate_unfold. simpl. by repeat case_match. Qed.

(** ** Functors made and deleted by the second [iterate] *)

Lemma new_functors_spec n (f : F) (h : gmap nat F) fcts h' :
  new_functors n f h = (fcts, h') →
  length fcts = n ∧ NoDup fcts ∧
  (∀ a, a ∈ fcts → h !! a = None ∧ h' !! a = Some (copy f)) ∧
  (∀ a, a ∉ fcts → h' !! a = h !! a).
Proof.
  revert h fcts h'. induction n as [|n IH]; intros h fcts h'; simpl.
  - intros [= <- <-]. split_and!; [done|constructor|set_solver|done].
  - destruct (new_functors n f (<[fresh (dom h) := copy f]> h)) as [l h2] eqn:Hrec.
    intros [= <- <-]. destruct (IH _ _ _ Hrec) as (Hlen & Hnd & Hin & Hout).
    set (a := fresh (dom h)) in *.
    assert (Ha : h !! a = None) by apply not_elem_of_dom, is_fresh.
    assert (Hal : a ∉ l).
    { intros [Hnone _]%Hin. by rewrite lookup_insert_eq in Hnone. }
    split_and!.
    + simpl. by rewrite Hlen.
    + by constructor.
    + intros b [->|Hb]%elem_of_cons.
      * split; [done|]. by rewrite Hout, lookup_insert_eq.
      * destruct (Hin b Hb) as [Hnone Hsome]. split; [|done].
        destruct (decide (a = b)) as [->|Hne]; [done|].
        by rewrite lookup_insert_ne in Hnone.
    + intros b Hb. apply not_elem_of_cons in Hb as [Hne Hb].
      by rewrite Hout, lookup_insert_ne.
Qed.

Lemma delete_functors_lookup l (h : gmap nat F) a :
  delete_functors l h !! a = if decide (a ∈ l) then None else h !! a.
Proof.
  unfold delete_functors. revert h. induction l as [|b l IH]; intros h.
  - destruct (decide (a ∈ [])) as [Ha|Ha]; [by apply elem_of_nil in Ha|done].
  - cbn [foldl]. rewrite IH.
    destruct (decide (a ∈ l)) as [Hl|Hl], (decide (a ∈ b :: l)) as [Hbl|Hbl]; try done.
    + exfalso. apply Hbl. by apply list_elem_of_further.
    + apply elem_of_cons in Hbl as [->|Hbl]; [|done]. apply lookup_delete_eq.
    + apply not_elem_of_cons in Hbl as [Hne _]. by apply lookup_delete_ne.
Qed.

Lemma created_functors_app (tr1 tr2 : list (@Event Item)) :
  created_functors (tr1 ++ tr2) = created_functors tr1 ++ created_functors tr2.
Proof. apply omap_app. Qed.

Lemma deleted_functors_app (tr1 tr2 : list (@Event Item)) :
  deleted_functors (tr1 ++ tr2) = deleted_functors tr1 ++ deleted_functors tr2.
Proof. apply omap_app. Qed.



(** The trace of [iterate] creates and deletes no functor, and invokes those
    of its vector only. *)
Lemma iterate_trace_functors d fcts G w :
  created_functors (outcome_trace (iterate d fcts G w)) = [] ∧
  deleted_functors (outcome_trace (iterate d fcts G w)) = [] ∧
  Forall (λ e, ∀ a, event_functor e = Some a → a ∈ fcts)
    (outcome_trace (iterate d fcts G w)).
Proof.
  destruct (iterate_trace_ok d fcts G w) as (rest & -> & Hok).
  rewrite created_functors_app, deleted_functors_app. simpl.
  assert (Hrest : created_functors rest = [] ∧ deleted_functors rest = [] ∧
                  Forall (λ e, ∀ a, event_functor e = Some a → a ∈ fcts) rest).
  { unfold created_functors, deleted_functors.
    induction Hok as [|e rest He _ (IH1 & IH2 & IH3)]; [done|].
    destruct He as [He| ->]; [|by split_and!; try constructor].
    destruct e; simpl in *; try done; split_and!; try done; constructor; try done.
    all: intros ? [= <-]; by eapply list_elem_of_lookup_2. }
  destruct Hrest as (-> & -> & Hrest). split_and!; [done|done|].
  by repeat constructor.
Qed.

(** ** Counting the fetches *)

Lemma filter_absent (k : nat) (ids : list nat) :
  k ∉ ids → filter (λ i, i ≠ k) ids = ids.
Proof.
  induction ids as [|i ids IH]; [done|].
  intros [Hne Hk]%not_elem_of_cons.
  rewrite filter_cons_True by done. by rewrite IH.
Qed.

Lemma NoDup_remove_length (k : nat) (ids : list nat) :
  NoDup ids → length ids ≤ S (length (filter (λ i, i ≠ k) ids)).
Proof.
  induction 1 as [|i ids Hi Hnd IH]; simpl; [lia|].
  destruct (decide (i = k)) as [->|Hne].
  - rewrite filter_cons_False by naive_solver. by rewrite filter_absent.
  - rewrite filter_cons_True by done. simpl. lia.
Qed.

Lemma nonempty_fetches_app (tr1 tr2 : list (@Event Item)) :
  nonempty_fetches (tr1 ++ tr2) = nonempty_fetches tr1 + nonempty_fetches tr2.
Proof. unfold nonempty_fetches. by rewrite filter_app, length_app. Qed.

Lemma nonempty_fetches_cons (e : @Event Item) tr :
  nonempty_fetches (e :: tr)
  = (if is_nonempty_get e then 1 else 0) + nonempty_fetches tr.
Proof.
  unfold nonempty_fetches. destruct (is_nonempty_get e) eqn:He.
  - by rewrite filter_cons_True.
  - rewrite filter_cons_False; [done|]. by rewrite He.
Qed.

Lemma nonempty_fetches_command_events_cons i (e : @Event Item) tr :
  is_nonempty_get e = false ∨ event_command e ≠ Some i →
  nonempty_fetches (command_events i (e :: tr))
  = nonempty_fetches (command_events i tr).
Proof.
  intros He. unfold command_events.
  destruct (decide (event_command e = Some i)) as [Hi|Hi].
  - rewrite filter_cons_True by done. rewrite nonempty_fetches_cons.
    destruct He as [->|]; done.
  - by rewrite filter_cons_False.
Qed.

(** Commands that have each made a fetch that returned items have made as
    many such fetches, at least, as they are. *)
Lemma fetch_pigeonhole (tr : list (@Event Item)) (ids : list nat) :
  NoDup ids →
  (∀ i, i ∈ ids → 1 ≤ nonempty_fetches (command_events i tr)) →
  length ids ≤ nonempty_fetches tr.
Proof.
  revert ids. induction tr as [|e tr IH]; intros ids Hnd Hall.
  - destruct ids as [|i ids]; [simpl; lia|].
    specialize (Hall i ltac:(set_solver)). cbv in Hall. lia.
  - rewrite nonempty_fetches_cons. destruct (is_nonempty_get e) eqn:He.
    + destruct e as [| | | | |k b more| | | | | |]; try done.
      pose proof (NoDup_remove_length k ids Hnd) as Hlen.
      cut (length (filter (λ i, i ≠ k) ids) ≤ nonempty_fetches tr); [lia|].
      apply IH; [by apply NoDup_filter|].
      intros i [Hne Hi]%list_elem_of_filter.
      rewrite <-(nonempty_fetches_command_events_cons i (EvGet k b more) tr).
      * by apply Hall.
      * right. simpl. congruence.
    + simpl. apply IH; [done|]. intros i Hi.
      rewrite <-(nonempty_fetches_command_events_cons i e tr) by auto.
      by apply Hall.
Qed.

Lemma fetches_app i (tr1 tr2 : list (@Event Item)) :
  fetches i (tr1 ++ tr2) = fetches i tr1 ++ fetches i tr2.
Proof. apply omap_app. Qed.

Lemma fetches_command_events i (tr : list (@Event Item)) :
  fetches i (command_events i tr) = fetches i tr.
Proof.
  unfold command_events. induction tr as [|e tr IH]; [done|].
  change (e :: tr) with ([e] ++ tr) at 2. rewrite (fetches_app i [e] tr).
  destruct (decide (event_command e = Some i)) as [Hi|Hi].
  - rewrite filter_cons_True by done.
    change (e :: filter _ tr) with ([e] ++ filter (λ e, event_command e = Some i) tr).
    by rewrite fetches_app, IH.
  - rewrite filter_cons_False by done. rewrite IH.
    replace (fetches i [e]) with (@nil (list Item * bool)); [done|].
    unfold fetches. destruct e; simpl in *; try done.
    by rewrite decide_False by congruence.
Qed.

Lemma fetches_calls i j a (b : list Item) : fetches i (EvCall j a <$> b) = [].
Proof. unfold fetches. by induction b. Qed.

Lemma fetches_turn c i (b : list Item) more : fetches i (turn c i b more) = [(b, more)].
Proof.
  unfold turn. rewrite fetches_app, fetches_calls. unfold fetches. simpl.
  by rewrite decide_True.
Qed.

Lemma fetches_turns c i (batches : list (list Item)) :
  fetches i (batches ≫= λ b, turn c i b true) = (λ b, (b, true)) <$> batches.
Proof.
  induction batches as [|b batches IH]; [done|].
  by rewrite bind_cons, fetches_app, fetches_turn, IH.
Qed.

Lemma nonempty_fetches_turn c i (b : list Item) more :
  b ≠ [] → 1 ≤ nonempty_fetches (turn c i b more).
Proof.
  intros Hb. destruct b as [|x b]; [done|].
  unfold turn. rewrite nonempty_fetches_app.
  rewrite !nonempty_fetches_cons. simpl. lia.
Qed.

(** ** The events of one command *)

Lemma command_events_app i tr1 tr2 :
  command_events i (tr1 ++ tr2) = command_events i tr1 ++ command_events i tr2.
Proof. apply filter_app. Qed.

Lemma command_events_own i tr :
  Forall (λ e, event_command e = Some i) tr → command_events i tr = tr.
Proof.
  induction 1 as [|e tr He _ IH]; [done|].
  unfold command_events in *. by rewrite filter_cons_True, IH.
Qed.

Lemma command_events_other i j tr :
  i ≠ j → Forall (λ e, event_command e = Some i) tr → command_events j tr = [].
Proof.
  intros Hne. induction 1 as [|e tr He _ IH]; [done|].
  unfold command_events in *. rewrite filter_cons_False; [done|congruence].
Qed.

Lemma command_events_none i tr :
  Forall (λ e, event_command e = None) tr → command_events i tr = [].
Proof.
  induction 1 as [|e tr He _ IH]; [done|].
  unfold command_events in *. rewrite filter_cons_False; [done|congruence].
Qed.

Lemma Step_events c i w fr fr' w' evs :
  Step c i w fr fr' w' evs → Forall (λ e, event_command e = Some i) evs.
Proof. destruct 1; repeat constructor. Qed.

Lemma script_inv_step cmds st i :
  script_inv cmds st → script_inv cmds (schedule_one cmds st i).
Proof.
  intros Hinv.
  destruct (schedule_one_cases cmds st i)
    as [->|(c & fr & fr' & w' & evs & Hc & Hi & Hstep & ->)]; [done|].
  intros j cj frj Hcj Hj. simpl in *. rewrite command_events_app.
  pose proof (Step_events _ _ _ _ _ _ _ Hstep) as Hevs.
  destruct (lookup_insert_frame _ _ _ _ _ _ Hi Hj) as [[-> ->]|[Hne Hj']].
  - simplify_eq. rewrite (command_events_own _ _ Hevs).
    destruct (Hinv i c fr Hc Hi) as (batches & ->).
    inversion Hstep; subst; unfold turn_so_far; simpl.
    + exists batches. by rewrite app_nil_r.
    + exists batches. by rewrite <-!app_assoc.
    + exists batches. by rewrite <-!app_assoc.
    + exists batches. by rewrite <-!app_assoc.
    + exists batches. erewrite take_S_r by done.
      rewrite fmap_app. simpl. by rewrite <-!app_assoc.
    + exists batches.
      match goal with H : its !! _ = Some _ |- _ => rewrite H end.
      by rewrite <-!app_assoc.
    + match goal with H : its !! _ = None |- _ =>
        apply lookup_ge_None in H; rewrite take_ge by done end.
      destruct run; simpl.
      * exists (batches ++ [its]).
        rewrite bind_app. simpl. by rewrite !app_nil_r.
      * exists batches. by rewrite app_nil_r.
  - rewrite (command_events_other _ _ _ (not_eq_sym Hne) Hevs), app_nil_r. eauto.
Qed.

Lemma script_inv_start cmds w tr :
  Forall (λ e, event_command e = None) tr → script_inv cmds (dispatch_start cmds w tr).
Proof.
  intros Htr i c fr Hc. simpl. rewrite list_lookup_fmap, Hc. simpl.
  intros [= <-]. exists []. simpl.
  apply command_events_none, Forall_app. split; [done|by repeat constructor].
Qed.

Lemma script_inv_iterate_state sched fcts G w :
  script_inv (commands fcts (synchro_next w) G) (iterate_state sched fcts G w).
Proof.
  unfold iterate_state. apply run_schedule_invariant.
  - intros st i. apply script_inv_step.
  - apply script_inv_start. by repeat constructor.
Qed.

End Protocol.

Section SequentialProperties.

Context {Item F : Type}.
Context `{!Functor Item F} `{!Inhabited Item}.

Implicit Types (st : @DispatchState Item (SequentialSource Item) F)
  (fr : @Frame Item) (l : list Item).

Lemma take_length_take (l : list Item) k : take (length (take k l)) l = take k l.
Proof.
  rewrite length_take. destruct (decide (k ≤ length l)).
  - by rewrite Nat.min_l.
  - rewrite Nat.min_r by lia. by rewrite !take_ge by lia.
Qed.

Lemma take_advance (l : list Item) n k :
  take (n + length (take k (drop n l))) l = take n l ++ take k (drop n l).
Proof.
  by rewrite <-take_take_drop, take_length_take.
Qed.

Lemma Forall_insert_inv {A} (P : A → Prop) (xs : list A) i x y :
  xs !! i = Some y → P y → Forall P (<[i := x]> xs) → Forall P xs.
Proof.
  intros Hi Hy Hall.
  rewrite <-(list_insert_id xs i y Hi), <-(list_insert_insert_eq xs i y x).
  apply Forall_insert; [done|done].
Qed.

Lemma pending_insert (xs : list (@Frame Item)) i fr fr' :
  xs !! i = Some fr →
  ∃ rest, concat (pending <$> xs) ≡ₚ pending fr ++ rest ∧
          concat (pending <$> <[i := fr']> xs) ≡ₚ pending fr' ++ rest.
Proof.
  intros Hi. exists (concat (pending <$> take i xs) ++ concat (pending <$> drop (S i) xs)).
  split.
  - rewrite <-(take_drop_middle xs i fr Hi) at 1.
    rewrite fmap_app, concat_app. simpl.
    by rewrite Permutation_app_swap_app.
  - rewrite insert_take_drop by eauto using lookup_lt_Some.
    rewrite fmap_app, concat_app. simpl.
    by rewrite Permutation_app_swap_app.
Qed.

Lemma called_items_app (tr1 tr2 : list (@Event Item)) :
  called_items (tr1 ++ tr2) = called_items tr1 ++ called_items tr2.
Proof. apply omap_app. Qed.

Ltac frames_cases Hi :=
  let j := fresh "j" in let frj := fresh "frj" in let Hj := fresh "Hj" in
  intros j frj Hj;
  destruct (lookup_insert_frame _ _ _ _ _ _ Hi Hj) as [[-> ->]|[? ?]];
  simpl in *; try done; eauto.

Lemma Step_not_raised c i (w : @World (SequentialSource Item) F) fr fr' w' evs :
  Step c i w fr fr' w' evs → raised fr = false.
Proof. by destruct 1. Qed.

Lemma partition_inv_step l cmds st i :
  partition_inv l st → partition_inv l (schedule_one cmds st i).
Proof.
  intros (Hl & Hle & Hdone & Hend & Hperm).
  destruct (schedule_one_cases cmds st i)
    as [->|(c & fr & fr' & w' & evs & Hc & Hi & Hstep & ->)]; [done|].
  assert (Hnr : Forall (λ fr, raised fr = false) (<[i := fr']> (frames st)) →
                Forall (λ fr, raised fr = false) (frames st)).
  { apply (Forall_insert_inv _ _ _ _ _ Hi). by eapply Step_not_raised. }
  destruct (pending_insert (frames st) i fr fr' Hi) as (rest & Hold & Hnew).
  pose proof (Hdone i fr Hi) as Hdone_i. pose proof (Hend i fr Hi) as Hend_i.
  unfold partition_inv; simpl.
  inversion Hstep; subst; simpl in *.
  - (* lock *)
    split_and!; [done|done|frames_cases Hi..|].
    intros Hall. specialize (Hperm (Hnr Hall)).
    rewrite Hnew, <-Hperm, Hold, called_items_app. simpl. by rewrite app_nil_r.
  - (* get *)
    match goal with H : GetOk _ _ _ = GetOk _ _ _ |- _ => injection H as <- <- <- end.
    simpl. set (n := cursor (source (world st))) in *.
    set (l := content (source (world st))) in *.
    assert (Hlen : length (take (length its) (drop n l)) ≤ length l - n).
    { rewrite length_take, length_drop. lia. }
    split_and!; [done|lia|frames_cases Hi| |].
    + intros j frj Hj.
      destruct (lookup_insert_frame _ _ _ _ _ _ Hi Hj) as [[-> ->]|[Hne Hj']]; simpl.
      * intros Hmore%bool_decide_eq_false. lia.
      * intros Hrun. specialize (Hend j frj Hj' Hrun). lia.
    + intros Hall. specialize (Hperm (Hnr Hall)).
      rewrite Hnew, take_advance, <-Hperm, Hold, called_items_app. simpl.
      rewrite app_nil_r. unfold pending; simpl. solve_Permutation.
  - (* get raises: not with this source *)
    done.
  - (* unlock *)
    split_and!; [done|done|frames_cases Hi..|].
    intros Hall. specialize (Hperm (Hnr Hall)).
    rewrite Hnew, <-Hperm, Hold, called_items_app. simpl. by rewrite app_nil_r.
  - (* call *)
    split_and!; [done|done|frames_cases Hi..|].
    intros Hall. specialize (Hperm (Hnr Hall)).
    rewrite Hnew, <-Hperm, Hold, called_items_app. unfold pending; simpl.
    rewrite (drop_S its x j) by done. solve_Permutation.
  - (* call raises *)
    split_and!; [done|done|frames_cases Hi..|].
    intros Hall. rewrite Forall_lookup in Hall.
    by specialize (Hall i _ (list_lookup_insert_eq _ _ _ (lookup_lt_Some _ _ _ Hi))).
  - (* end of the inner loop *)
    split_and!; [done|done|destruct run; frames_cases Hi..|].
    intros Hall. specialize (Hperm (Hnr Hall)).
    rewrite Hnew, <-Hperm, Hold, called_items_app. unfold pending; simpl.
    rewrite drop_ge by (by apply lookup_ge_None). rewrite !app_nil_r.
    by destruct run.
Qed.

Lemma concat_pending_finished (xs : list (@Frame Item)) :
  Forall (λ fr, at_point fr = Done) xs → concat (pending <$> xs) = [].
Proof.
  induction 1 as [|fr xs Hfr _ IH]; [done|].
  rewrite fmap_cons. simpl. rewrite IH. unfold pending. by rewrite Hfr.
Qed.

Lemma partition_inv_iterate_state sched fcts G (w : @World (SequentialSource Item) F) :
  partition_inv (content (source w)) (iterate_state sched fcts G w).
Proof.
  unfold iterate_state. apply run_schedule_invariant.
  - intros st i. apply partition_inv_step.
  - split_and!; simpl; try done; try lia.
    + intros i fr. rewrite list_lookup_fmap.
      destruct (commands _ _ _ !! i); simpl; [|done]. by intros [= <-].
    + intros i fr. rewrite list_lookup_fmap.
      destruct (commands _ _ _ !! i); simpl; [|done]. by intros [= <-].
    + intros _. rewrite take_0.
      replace (concat _) with (@nil Item); [done|].
      induction (commands _ _ _); simpl; done.
Qed.

(** With no functor, or with a group size of zero, no frame ever has an
    item and no functor is invoked. *)
Lemma no_items_iterate_state sched fcts G (w : @World (SequentialSource Item) F) :
  fcts = [] ∨ G = 0 →
  Forall (λ fr, items fr = []) (frames (iterate_state sched fcts G w)) ∧
  called_items (trace (iterate_state sched fcts G w)) = [].
Proof.
  intros Hcfg. unfold iterate_state.
  apply (run_schedule_invariant (λ st,
    Forall (λ fr, items fr = []) (frames st) ∧ called_items (trace st) = [])).
  - intros st i (Hfrs & Hcalled).
    destruct (schedule_one_cases (commands fcts (synchro_next w) G) st i)
      as [->|(c & fr & fr' & w' & evs & Hc & Hi & Hstep & ->)]; [done|].
    assert (Hfr : items fr = []) by (rewrite Forall_lookup in Hfrs; eauto).
    simpl. rewrite called_items_app, Hcalled.
    inversion Hstep; subst; simpl in *; subst; try done;
      try match goal with H : GetOk _ _ _ = GetOk _ _ _ |- _ =>
            injection H as <- <- <- end;
      (split; [by apply Forall_insert|done]).
  - simpl. split; [|done]. destruct Hcfg as [->| ->]; [constructor|].
    unfold commands. rewrite <-list_fmap_compose. by apply Forall_fmap, Forall_true.
Qed.

Lemma first_fetch_app (tr1 tr2 : list (@Event Item)) :
  first_fetch (tr1 ++ tr2)
  = match first_fetch tr1 with Some b => Some b | None => first_fetch tr2 end.
Proof.
  unfold first_fetch. rewrite omap_app. by destruct (omap _ tr1).
Qed.

Lemma first_fetch_inv_iterate_state sched fcts G (w : @World (SequentialSource Item) F) :
  first_fetch_inv (content (source w)) G (iterate_state sched fcts G w).
Proof.
  unfold iterate_state. apply run_schedule_invariant.
  - intros st i Hinv.
    destruct (schedule_one_cases (commands fcts (synchro_next w) G) st i)
      as [->|(c & fr & fr' & w' & evs & Hc & Hi & Hstep & ->)]; [done|].
    unfold first_fetch_inv in *. simpl. rewrite first_fetch_app.
    destruct (first_fetch (trace st)) as [b|]; [done|].
    destruct Hinv as [Hsrc Hfrs].
    assert (Hfr : length (items fr) = G) by (rewrite Forall_lookup in Hfrs; eauto).
    inversion Hstep; subst; simpl in *; try done;
      try (split; [done|by apply Forall_insert]).
    match goal with H : GetOk _ _ _ = GetOk _ _ _ |- _ => injection H as <- <- <- end.
    by rewrite Hsrc.
  - unfold first_fetch_inv. simpl. split; [done|].
    unfold commands. rewrite <-list_fmap_compose.
    apply Forall_fmap, Forall_forall. intros a _. simpl. apply length_replicate.
Qed.

Lemma partition_safety d fcts G (w : @World (SequentialSource Item) F) w' tr :
  fcts ≠ [] → iterate d fcts G w = Returned w' tr →
  called_items tr ≡ₚ content (source w).
Proof.
  intros Hne (Hdone & _ & ->)%iterate_Returned.
  destruct (partition_inv_iterate_state (schedule d) fcts G w)
    as (_ & _ & Hrun & Hend & Hperm).
  set (st := iterate_state (schedule d) fcts G w) in *.
  rewrite called_items_app. simpl. rewrite app_nil_r.
  assert (Hcur : cursor (source (world st)) = length (content (source w))).
  { destruct (frames st) as [|fr frs] eqn:Hfrs.
    - apply (f_equal length) in Hfrs. unfold st in Hfrs.
      rewrite iterate_state_length in Hfrs. by destruct fcts.
    - apply (Hend 0 fr); [done|].
      apply (Hrun 0 fr); [done|]. by inversion Hdone. }
  rewrite concat_pending_finished, app_nil_r, Hcur, take_ge in Hperm by done.
  apply Hperm. eapply Forall_impl; [exact Hdone|].
  intros fr Hfr. unfold raised. by rewrite Hfr.
Qed.

(** ** Every dispatch can be completed *)

Section Liveness.

Hypothesis call_total : ∀ (f : F) (x : Item), is_Some (call f x).

Lemma live_inv_step fcts s G st i :
  live_inv fcts s G st → live_inv fcts s G (schedule_one (commands fcts s G) st i).
Proof.
  intros (Hlock & Hlen & Hle & Hfct & Hfrs).
  split; [by apply lock_inv_step|].
  split; [by rewrite schedule_one_length|].
  destruct (schedule_one_cases (commands fcts s G) st i)
    as [->|(c & fr & fr' & w' & evs & Hc & Hi & Hstep & ->)]; [done|].
  apply commands_lookup in Hc as (a & Ha & ->).
  assert (Hfr : frame_ok G fr) by (rewrite Forall_lookup in Hfrs; eauto).
  destruct Hfr as (_ & Hsize & Hfull & Hhead). simpl.
  inversion Hstep; subst; simpl in *.
  - split_and!; try done. apply Forall_insert; [done|]. by split_and!.
  - match goal with H : GetOk _ _ _ = GetOk _ _ _ |- _ => injection H as <- <- <- end.
    simpl. set (n := cursor (source (world st))) in *.
    set (l := content (source (world st))) in *.
    assert (Hbatch : length (take (length its) (drop n l)) = length its `min` (length l - n)).
    { by rewrite length_take, length_drop. }
    split_and!; [lia|done|].
    apply Forall_insert; [done|]. split_and!; simpl; [done|lia| |done].
    intros Hmore%bool_decide_eq_true. specialize (Hfull Hhead). lia.
  - done.
  - split_and!; try done. apply Forall_insert; [done|]. by split_and!.
  - split_and!; try done.
    + intros b Hb. destruct (decide (a = b)) as [->|Hne].
      * rewrite lookup_insert_eq. eauto.
      * rewrite lookup_insert_ne by done. eauto.
    + apply Forall_insert; [done|]. by split_and!.
  - exfalso. destruct (Hfct a) as [f Hf]; [by eapply list_elem_of_lookup_2|].
    destruct (call_total f x) as [f' Hf'].
    match goal with H : _ ≫= _ = None |- _ => rewrite Hf in H; simpl in H end.
    congruence.
  - split_and!; try done. apply Forall_insert; [done|]. by destruct run; split_and!.
Qed.

Lemma sum_list_insert (f : @Frame Item → nat) (xs : list (@Frame Item)) i x y :
  xs !! i = Some y →
  sum_list (f <$> <[i := x]> xs) + f y = sum_list (f <$> xs) + f x.
Proof.
  revert i. induction xs as [|z xs IH]; intros [|i] Hi; simplify_eq/=; [lia|].
  specialize (IH i Hi). lia.
Qed.

(** A move of a command makes the measure decrease. *)
Lemma measure_step fcts s G st i c fr fr' w' evs :
  1 ≤ G → live_inv fcts s G st →
  commands fcts s G !! i = Some c → frames st !! i = Some fr →
  Step c i (world st) fr fr' w' evs →
  measure G {| frames := <[i := fr']> (frames st); world := w'; trace := trace st ++ evs |}
  < measure G st.
Proof.
  intros HG (Hlock & Hlen & Hle & Hfct & Hfrs) Hc Hi Hstep.
  assert (Hfr : frame_ok G fr) by (rewrite Forall_lookup in Hfrs; eauto).
  destruct Hfr as (_ & Hsize & Hfull & Hhead).
  unfold measure. simpl.
  pose proof (sum_list_insert (weight G) (frames st) i fr' fr Hi) as Hsum.
  inversion Hstep; subst; unfold weight in *; simpl in *; try lia; try done.
  all: try match goal with H : ?l !! _ = Some _ |- _ =>
             let T := type of l in unify T (list Item); apply lookup_lt_Some in H end.
  all: try match goal with H : ?l !! _ = None |- _ =>
             let T := type of l in unify T (list Item); apply lookup_ge_None in H end.
  all: try lia.
  all: try match goal with |- context [if ?b then _ else _] => destruct b; lia end.
  - match goal with H : GetOk _ _ _ = GetOk _ _ _ |- _ => injection H as <- <- <- end.
    simpl in *. set (n := cursor (source (world st))) in *.
    set (l := content (source (world st))) in *.
    assert (Hbatch : length (take (length its) (drop n l)) = length its `min` (length l - n)).
    { by rewrite length_take, length_drop. }
    specialize (Hfull Hhead).
    set (b := length (take (length its) (drop n l))) in *.
    case_bool_decide as Hmore.
    + assert (b = G) as Hb by lia.
      assert (length l - (n + b) + G = length l - n) as <- by lia. nia.
    + assert ((length l - (n + b)) * (G + 4) ≤ (length l - n) * (G + 4)) by nia. lia.
Qed.

(** A dispatch that is not finished has a command that can move. *)
Lemma live_progress fcts s G st :
  live_inv fcts s G st → ¬ Forall (λ fr, at_point fr = Done) (frames st) →
  ∃ i c fr fr' w' evs,
    commands fcts s G !! i = Some c ∧ frames st !! i = Some fr ∧
    Step c i (world st) fr fr' w' evs.
Proof.
  intros ([Hlock Hhold] & Hlen & Hle & Hfct & Hfrs) Hnot.
  assert (Hcmd : ∀ i fr, frames st !! i = Some fr →
            ∃ a, fcts !! i = Some a ∧
              commands fcts s G !! i = Some {| _fct := a; _synchro := s; _groupSize := G |}).
  { intros i fr Hi. apply lookup_lt_Some in Hi. rewrite Hlen in Hi.
    destruct (lookup_lt_is_Some_2 fcts i Hi) as [a Ha]. exists a. split; [done|].
    unfold commands. by rewrite list_lookup_fmap, Ha. }
  assert (Hmove : ∀ i fr, frames st !! i = Some fr → at_point fr ≠ Done →
            at_point fr ≠ AtLock →
            ∃ c fr' w' evs, commands fcts s G !! i = Some c ∧
              Step c i (world st) fr fr' w' evs).
  { intros i fr Hi Hnd Hnl. destruct (Hcmd i fr Hi) as (a & Ha & Hc).
    assert (Hok : frame_ok G fr) by (rewrite Forall_lookup in Hfrs; eauto).
    destruct Hok as (Hnr & _).
    eexists. destruct fr as [p its run]. unfold raised in Hnr. simpl in *.
    destruct p; try done.
    - do 3 eexists. split; [done|]. by eapply StepGet.
    - do 3 eexists. split; [done|]. by eapply StepUnlock.
    - destruct (its !! i0) as [x|] eqn:Hx.
      + destruct (Hfct a) as [f Hf]; [by eapply list_elem_of_lookup_2|].
        destruct (call_total f x) as [f' Hf'].
        do 3 eexists. split; [done|]. by eapply StepCall.
      + do 3 eexists. split; [done|]. by eapply StepLoop. }
  destruct Hlock as [Hfree|(k & Hk & Hklt)].
  - apply not_Forall_Exists in Hnot; [|intros fr; apply _].
    apply Exists_exists in Hnot as (fr & Hin & Hnd).
    apply list_elem_of_lookup in Hin as [i Hi].
    destruct (decide (at_point fr = AtLock)) as [Hl|Hl].
    + destruct (Hcmd i fr Hi) as (a & Ha & Hc).
      destruct fr as [p its run]; simpl in *; subst p.
      do 6 eexists. split_and!; [done..|]. by eapply StepLock.
    + destruct (Hmove i fr Hi Hnd Hl) as (c & fr' & w' & evs & Hc & Hstep).
      by exists i, c, fr, fr', w', evs.
  - destruct (lookup_lt_is_Some_2 _ _ Hklt) as [fr Hi].
    pose proof (proj2 (Hhold k fr Hi) Hk) as Hholding.
    destruct (Hmove k fr Hi) as (c & fr' & w' & evs & Hc & Hstep).
    + intros Hp. by rewrite Hp in Hholding.
    + intros Hp. by rewrite Hp in Hholding.
    + by exists k, c, fr, fr', w', evs.
Qed.

(** From a state of a dispatch, some schedule leads all commands to their
    end. *)
Lemma live_completion fcts s G n st :
  1 ≤ G → live_inv fcts s G st → measure G st ≤ n →
  ∃ sched, Forall (λ fr, at_point fr = Done)
             (frames (run_schedule (commands fcts s G) sched st)).
Proof.
  intros HG. revert st. induction n as [|n IH]; intros st Hinv Hn.
  all: destruct (decide (Forall (λ fr, at_point fr = Done) (frames st))) as [Hd|Hd];
    [by exists []|].
  all: destruct (live_progress _ _ _ _ Hinv Hd)
    as (i & c & fr & fr' & w' & evs & Hc & Hi & Hstep).
  all: pose proof (measure_step _ _ _ _ _ _ _ _ _ _ HG Hinv Hc Hi Hstep) as Hlt.
  - lia.
  - destruct (IH (schedule_one (commands fcts s G) st i)) as [sched Hsched].
    + by apply live_inv_step.
    + unfold schedule_one. rewrite Hc, Hi, (Step_execute_step _ _ _ _ _ _ _ Hstep). lia.
    + by exists (i :: sched).
Qed.

Lemma live_inv_iterate_state sched fcts G (w : @World (SequentialSource Item) F) :
  (∀ a, a ∈ fcts → is_Some (functors w !! a)) →
  live_inv fcts (synchro_next w) G (iterate_state sched fcts G w).
Proof.
  intros Hfct. unfold iterate_state. apply run_schedule_invariant.
  - intros st i. apply live_inv_step.
  - split_and!; simpl.
    + apply lock_inv_start. simpl. apply lookup_insert_eq.
    + unfold commands. by rewrite !length_fmap.
    + lia.
    + done.
    + unfold commands. rewrite <-list_fmap_compose.
      apply Forall_fmap, Forall_forall. intros a _.
      unfold frame_ok, raised. simpl. by rewrite length_replicate.
Qed.

(** Whatever has been scheduled so far, the dispatch can be completed, and
    [iterate] then returns. *)
Lemma iterate_can_return n sched fcts G (w : @World (SequentialSource Item) F) :
  1 ≤ G → (∀ a, a ∈ fcts → is_Some (functors w !! a)) →
  ∃ sched' w' tr,
    iterate {| getExecutionUnitsNumber := n; schedule := sched ++ sched' |} fcts G w
    = Returned w' tr.
Proof.
  intros HG Hfct.
  destruct (live_completion fcts (synchro_next w) G _ (iterate_state sched fcts G w) HG
              (live_inv_iterate_state sched fcts G w Hfct) (le_n _)) as [sched' Hdone].
  exists sched'. do 2 eexists. apply iterate_Returned. simpl.
  split; [|done]. unfold iterate_state in *. by rewrite run_schedule_app.
Qed.

(** ** A backend that serves the commands in turn lets the call return *)

Lemma schedule_one_measure fcts s G st i :
  1 ≤ G → live_inv fcts s G st →
  schedule_one (commands fcts s G) st i = st ∨
  measure G (schedule_one (commands fcts s G) st i) < measure G st.
Proof.
  intros HG Hinv.
  destruct (schedule_one_cases (commands fcts s G) st i)
    as [->|(c & fr & fr' & w' & evs & Hc & Hi & Hstep & ->)]; [by left|].
  right. by eapply measure_step.
Qed.

Lemma live_inv_run fcts s G sched st :
  live_inv fcts s G st → live_inv fcts s G (run_schedule (commands fcts s G) sched st).
Proof.
  apply (run_schedule_invariant (live_inv fcts s G)). intros st' i. apply live_inv_step.
Qed.

Lemma run_schedule_measure fcts s G sched st :
  1 ≤ G → live_inv fcts s G st →
  run_schedule (commands fcts s G) sched st = st ∨
  measure G (run_schedule (commands fcts s G) sched st) < measure G st.
Proof.
  intros HG. revert st. induction sched as [|i sched IH]; intros st Hinv; [by left|].
  simpl. destruct (schedule_one_measure fcts s G st i HG Hinv) as [->|Hlt]; [by apply IH|].
  right. destruct (IH (schedule_one (commands fcts s G) st i)) as [->|Hlt'];
    [by apply live_inv_step|done|lia].
Qed.

(** In a round in which every command is given a step, one at least moves,
    unless all are done. *)
Lemma round_decreases fcts s G st :
  1 ≤ G → live_inv fcts s G st →
  ¬ Forall (λ fr, at_point fr = Done) (frames st) →
  measure G (run_schedule (commands fcts s G) (seq 0 (length fcts)) st) < measure G st.
Proof.
  intros HG Hinv Hnot.
  destruct (live_progress _ _ _ _ Hinv Hnot)
    as (i & c & fr & fr' & w' & evs & Hc & Hi & Hstep).
  assert (Hlt : i < length fcts).
  { apply lookup_lt_Some in Hc. unfold commands in Hc. by rewrite length_fmap in Hc. }
  replace (length fcts) with (i + S (length fcts - S i)) by lia.
  rewrite seq_app, run_schedule_app. simpl.
  destruct (run_schedule_measure fcts s G (seq 0 i) st HG Hinv) as [->|Hlt1].
  - set (st2 := schedule_one (commands fcts s G) st i).
    assert (Hlt2 : measure G st2 < measure G st).
    { unfold st2, schedule_one.
      rewrite Hc, Hi, (Step_execute_step _ _ _ _ _ _ _ Hstep).
      by eapply measure_step. }
    destruct (run_schedule_measure fcts s G (seq (S i) (length fcts - S i)) st2 HG)
      as [->|Hlt3]; [by apply live_inv_step|done|lia].
  - set (st1 := run_schedule (commands fcts s G) (seq 0 i) st) in *.
    assert (Hinv1 : live_inv fcts s G st1) by by apply live_inv_run.
    destruct (run_schedule_measure fcts s G (i :: seq (S i) (length fcts - S i)) st1 HG Hinv1)
      as [Heq|Hlt3]; simpl in *; [by rewrite Heq|lia].
Qed.

Lemma run_schedule_done cmds sched st :
  Forall (λ fr, at_point fr = Done) (frames st) → run_schedule cmds sched st = st.
Proof.
  intros Hdone. induction sched as [|i sched IH]; [done|]. simpl.
  replace (schedule_one cmds st i) with st; [done|].
  destruct (schedule_one_cases cmds st i)
    as [->|(c & fr & fr' & w' & evs & Hc & Hi & Hstep & _)]; [done|].
  rewrite Forall_lookup in Hdone. specialize (Hdone i fr Hi).
  inversion Hstep; subst; done.
Qed.

Lemma rounds_complete fcts s G n st :
  1 ≤ G → live_inv fcts s G st → measure G st ≤ n →
  Forall (λ fr, at_point fr = Done)
    (frames (run_schedule (commands fcts s G)
               (mjoin (replicate n (seq 0 (length fcts)))) st)).
Proof.
  intros HG. revert st. induction n as [|n IH]; intros st Hinv Hn.
  all: destruct (decide (Forall (λ fr, at_point fr = Done) (frames st))) as [Hd|Hd];
    [by rewrite run_schedule_done|].
  all: pose proof (round_decreases fcts s G st HG Hinv Hd) as Hlt.
  - lia.
  - simpl. rewrite run_schedule_app. apply IH; [by apply live_inv_run|lia].
Qed.

Lemma measure_start fcts s G (w : @World (SequentialSource Item) F) tr :
  cursor (source w) = 0 →
  measure G (dispatch_start (commands fcts s G) w tr)
  = (length fcts + length (content (source w))) * (G + 4).
Proof.
  intros Hcur. unfold measure. simpl. rewrite Hcur, Nat.sub_0_r.
  replace (sum_list _) with (length fcts * (G + 4)); [lia|].
  unfold commands. induction fcts as [|a fcts IH]; [done|].
  rewrite !fmap_cons. simpl. unfold weight at 1. simpl. lia.
Qed.

(** With a backend that gives the commands one step each in turn, for enough
    rounds, [iterate] returns. *)
Lemma iterate_round_robin_returns units rounds fcts G
  (w : @World (SequentialSource Item) F) :
  1 ≤ G → (∀ a, a ∈ fcts → is_Some (functors w !! a)) →
  (length fcts + length (content (source w))) * (G + 4) ≤ rounds →
  ∃ w' tr,
    iterate (round_robin_dispatcher units (length fcts) rounds) fcts G w = Returned w' tr.
Proof.
  intros HG Hfct Hrounds. do 2 eexists. apply iterate_Returned. simpl.
  split; [|done]. unfold iterate_state.
  apply rounds_complete; [done| |].
  - apply (live_inv_iterate_state [] fcts G w Hfct).
  - by rewrite measure_start.
Qed.

(** ** Commands that find the source exhausted *)

Lemma fetch_inv_step fcts s G st i :
  1 ≤ G → live_inv fcts s G st → fetch_inv G st →
  fetch_inv G (schedule_one (commands fcts s G) st i).
Proof.
  intros HG (_ & _ & Hle & _ & Hfrs) (Hfull & Hbound & Hmore).
  destruct (schedule_one_cases (commands fcts s G) st i)
    as [->|(c & fr & fr' & w' & evs & Hc & Hi & Hstep & ->)]; [done|].
  assert (Hfr : frame_ok G fr) by (rewrite Forall_lookup in Hfrs; eauto).
  destruct Hfr as (_ & _ & Hsize & Hhead).
  unfold fetch_inv. simpl. rewrite nonempty_fetches_app.
  inversion Hstep; subst; simpl in *;
    try (rewrite Nat.add_0_r; split_and!; [done|done|];
         apply Forall_app; split; [done|by repeat constructor]).
  match goal with H : GetOk _ _ _ = GetOk _ _ _ |- _ => injection H as <- <- <- end.
  simpl. specialize (Hsize Hhead).
  set (n := cursor (source (world st))) in *.
  set (l := content (source (world st))) in *.
  set (f := nonempty_fetches (trace st)) in *.
  assert (Hbatch : length (take (length its) (drop n l)) = G `min` (length l - n)).
  { by rewrite length_take, length_drop, Hsize. }
  destruct (take (length its) (drop n l)) as [|x b] eqn:Hb; simpl in *.
  - rewrite !Nat.add_0_r. split_and!; [done|done|].
    apply Forall_app; split; [done|]. constructor; [|constructor].
    destruct (bool_decide_reflect (n < length l)); [lia|done].
  - assert (Hone : ∀ m, nonempty_fetches [EvGet i (x :: b) m] = 1) by done.
    rewrite !Hone.
    assert (Hn : n < length l) by lia.
    specialize (Hfull Hn).
    destruct (Nat.min_spec G (length l - n)) as [[? Hm]|[? Hm]]; rewrite Hm in Hbatch.
    all: split_and!; [nia|nia|].
    all: apply Forall_app; split; [done|]; constructor; [|constructor].
    all: by destruct (bool_decide _).
Qed.

Lemma fetch_inv_iterate_state sched fcts G (w : @World (SequentialSource Item) F) :
  1 ≤ G → (∀ a, a ∈ fcts → is_Some (functors w !! a)) →
  fetch_inv G (iterate_state sched fcts G w).
Proof.
  intros HG Hfct.
  cut (live_inv fcts (synchro_next w) G (iterate_state sched fcts G w) ∧
       fetch_inv G (iterate_state sched fcts G w)); [by intros []|].
  pose proof (live_inv_iterate_state [] fcts G w Hfct) as Hlive.
  unfold iterate_state in *. simpl in Hlive.
  apply run_schedule_invariant.
  - intros st i [Hl Hf]. split; [by apply live_inv_step|by apply fetch_inv_step].
  - split; [done|]. unfold fetch_inv. simpl. split_and!; [lia|lia|by repeat constructor].
Qed.

End Liveness.

End SequentialProperties.

(** ** Functors that raise *)

Section Isolation.

Context {Item F : Type}.
Context `{!Functor Item F} `{!Inhabited Item}.

Implicit Types (st : @DispatchState Item (SequentialSource Item) F)
  (w : @World (SequentialSource Item) F) (fr : @Frame Item).

Lemma frame_sound_moving G c i w fr fr' w' evs :
  Step c i w fr fr' w' evs → frame_sound G fr →
  length (items fr) ≤ G ∧
  (isRunning fr = true → length (items fr) = G) ∧
  match at_point fr with AtLock | AtGet => isRunning fr = true | _ => True end.
Proof. by destruct 1. Qed.

Lemma sound_inv_step fcts s G st i :
  sound_inv fcts s G st → sound_inv fcts s G (schedule_one (commands fcts s G) st i).
Proof.
  intros (Hlock & Hlen & Hle & Hfrs).
  split; [by apply lock_inv_step|].
  split; [by rewrite schedule_one_length|].
  destruct (schedule_one_cases (commands fcts s G) st i)
    as [->|(c & fr & fr' & w' & evs & Hc & Hi & Hstep & ->)]; [done|].
  assert (Hfr : frame_sound G fr) by (rewrite Forall_lookup in Hfrs; eauto).
  destruct (frame_sound_moving G _ _ _ _ _ _ _ Hstep Hfr) as (Hsize & Hfull & Hhead).
  simpl. inversion Hstep; subst; simpl in *.
  - split; [done|]. apply Forall_insert; [done|]. by split_and!.
  - match goal with H : GetOk _ _ _ = GetOk _ _ _ |- _ => injection H as <- <- <- end.
    simpl. set (n := cursor (source (world st))) in *.
    set (l := content (source (world st))) in *.
    assert (Hbatch : length (take (length its) (drop n l)) = length its `min` (length l - n)).
    { by rewrite length_take, length_drop. }
    split; [lia|].
    apply Forall_insert; [done|]. unfold frame_sound. simpl. split_and!; [lia| |done].
    intros Hmore%bool_decide_eq_true. specialize (Hfull Hhead). lia.
  - done.
  - split; [done|]. apply Forall_insert; [done|]. by split_and!.
  - split; [done|]. apply Forall_insert; [done|]. by split_and!.
  - split; [done|]. by apply Forall_insert.
  - split; [done|]. apply Forall_insert; [done|].
    unfold frame_sound. by destruct run; simpl; split_and!.
Qed.

Lemma sound_measure_step fcts s G st i c fr fr' w' evs :
  1 ≤ G → sound_inv fcts s G st →
  frames st !! i = Some fr →
  Step c i (world st) fr fr' w' evs →
  measure G {| frames := <[i := fr']> (frames st); world := w'; trace := trace st ++ evs |}
  < measure G st.
Proof.
  intros HG (Hlock & Hlen & Hle & Hfrs) Hi Hstep.
  assert (Hfr : frame_sound G fr) by (rewrite Forall_lookup in Hfrs; eauto).
  destruct (frame_sound_moving G _ _ _ _ _ _ _ Hstep Hfr) as (Hsize & Hfull & Hhead).
  unfold measure. simpl.
  pose proof (sum_list_insert (weight G) (frames st) i fr' fr Hi) as Hsum.
  inversion Hstep; subst; unfold weight in *; simpl in *; try lia; try done.
  all: try match goal with H : ?l !! _ = Some _ |- _ =>
             let T := type of l in unify T (list Item); apply lookup_lt_Some in H end.
  all: try match goal with H : ?l !! _ = None |- _ =>
             let T := type of l in unify T (list Item); apply lookup_ge_None in H end.
  all: try lia.
  all: try match goal with |- context [if ?b then _ else _] => destruct b; lia end.
  match goal with H : GetOk _ _ _ = GetOk _ _ _ |- _ => injection H as <- <- <- end.
  simpl in *. set (n := cursor (source (world st))) in *.
  set (l := content (source (world st))) in *.
  assert (Hbatch : length (take (length its) (drop n l)) = length its `min` (length l - n)).
  { by rewrite length_take, length_drop. }
  specialize (Hfull Hhead).
  set (b := length (take (length its) (drop n l))) in *.
  destruct (bool_decide_reflect (n + b < length l)) as [Hmore|Hmore].
  - assert (b = G) as Hb by lia.
    assert (length l - (n + b) + G = length l - n) as <- by lia. nia.
  - assert ((length l - (n + b)) * (G + 4) ≤ (length l - n) * (G + 4)) by nia. lia.
Qed.

(** As long as a command has not terminated, a command can move. *)
Lemma sound_progress fcts s G st :
  sound_inv fcts s G st → ¬ Forall (λ fr, terminated fr = true) (frames st) →
  ∃ i c fr fr' w' evs,
    commands fcts s G !! i = Some c ∧ frames st !! i = Some fr ∧
    Step c i (world st) fr fr' w' evs.
Proof.
  intros ([Hlock Hhold] & Hlen & Hle & Hfrs) Hnot.
  assert (Hcmd : ∀ i fr, frames st !! i = Some fr →
            ∃ a, commands fcts s G !! i
                 = Some {| _fct := a; _synchro := s; _groupSize := G |}).
  { intros i fr Hi. apply lookup_lt_Some in Hi. rewrite Hlen in Hi.
    destruct (lookup_lt_is_Some_2 fcts i Hi) as [a Ha]. exists a.
    unfold commands. by rewrite list_lookup_fmap, Ha. }
  assert (Hmove : ∀ i fr, frames st !! i = Some fr → terminated fr = false →
            at_point fr ≠ AtLock →
            ∃ c fr' w' evs, commands fcts s G !! i = Some c ∧
              Step c i (world st) fr fr' w' evs).
  { intros i fr Hi Hnt Hnl. destruct (Hcmd i fr Hi) as (a & Hc).
    eexists. destruct fr as [p its run]. unfold terminated in Hnt. simpl in *.
    destruct p; try done.
    - do 3 eexists. split; [done|]. by eapply StepGet.
    - do 3 eexists. split; [done|]. by eapply StepUnlock.
    - destruct (its !! i0) as [x|] eqn:Hx.
      + destruct (functors (world st) !! a ≫= λ f, call f x) as [f'|] eqn:Hcall.
        * apply bind_Some in Hcall as (f & Hf & Hf').
          do 3 eexists. split; [done|]. by eapply StepCall.
        * do 3 eexists. split; [done|]. by eapply StepCallRaise.
      + do 3 eexists. split; [done|]. by eapply StepLoop. }
  destruct Hlock as [Hfree|(k & Hk & Hklt)].
  - apply not_Forall_Exists in Hnot; [|intros fr; apply _].
    apply Exists_exists in Hnot as (fr & Hin & Hnd). simpl in Hnd.
    apply not_true_is_false in Hnd.
    apply list_elem_of_lookup in Hin as [i Hi].
    destruct (decide (at_point fr = AtLock)) as [Hl|Hl].
    + destruct (Hcmd i fr Hi) as (a & Hc).
      destruct fr as [p its run]; simpl in *; subst p.
      do 6 eexists. split_and!; [done..|]. by eapply StepLock.
    + destruct (Hmove i fr Hi Hnd Hl) as (c & fr' & w' & evs & Hc & Hstep).
      by exists i, c, fr, fr', w', evs.
  - destruct (lookup_lt_is_Some_2 _ _ Hklt) as [fr Hi].
    pose proof (proj2 (Hhold k fr Hi) Hk) as Hholding.
    assert (Hsound : frame_sound G fr) by (rewrite Forall_lookup in Hfrs; eauto).
    destruct (Hmove k fr Hi) as (c & fr' & w' & evs & Hc & Hstep).
    + destruct fr as [p its run]. unfold terminated, frame_sound in *. simpl in *.
      by destruct p as [| | | | |[|]].
    + intros Hp. by rewrite Hp in Hholding.
    + by exists k, c, fr, fr', w', evs.
Qed.

Lemma sound_completion fcts s G n st :
  1 ≤ G → sound_inv fcts s G st → measure G st ≤ n →
  ∃ sched, Forall (λ fr, terminated fr = true)
             (frames (run_schedule (commands fcts s G) sched st)).
Proof.
  intros HG. revert st. induction n as [|n IH]; intros st Hinv Hn.
  all: destruct (decide (Forall (λ fr, terminated fr = true) (frames st))) as [Hd|Hd];
    [by exists []|].
  all: destruct (sound_progress _ _ _ _ Hinv Hd)
    as (i & c & fr & fr' & w' & evs & Hc & Hi & Hstep).
  all: pose proof (sound_measure_step _ _ _ _ _ _ _ _ _ _ HG Hinv Hi Hstep) as Hlt.
  - lia.
  - destruct (IH (schedule_one (commands fcts s G) st i)) as [sched Hsched].
    + by apply sound_inv_step.
    + unfold schedule_one. rewrite Hc, Hi, (Step_execute_step _ _ _ _ _ _ _ Hstep). lia.
    + by exists (i :: sched).
Qed.

Lemma sound_inv_iterate_state sched fcts G w :
  sound_inv fcts (synchro_next w) G (iterate_state sched fcts G w).
Proof.
  unfold iterate_state. apply run_schedule_invariant.
  - intros st i. apply sound_inv_step.
  - split_and!; simpl.
    + apply lock_inv_start. simpl. apply lookup_insert_eq.
    + unfold commands. by rewrite !length_fmap.
    + lia.
    + unfold commands. rewrite <-list_fmap_compose.
      apply Forall_fmap, Forall_forall. intros a _.
      unfold frame_sound. simpl. by rewrite length_replicate.
Qed.

Lemma forallb_terminated (xs : list (@Frame Item)) :
  forallb terminated xs = true ↔ Forall (λ fr, terminated fr = true) xs.
Proof.
  induction xs as [|fr xs IH]; simpl.
  - split; [constructor|done].
  - by rewrite andb_true_iff, IH, Forall_cons.
Qed.

End Isolation.

(** ** A command that finds nothing at its first fetch *)

Section Starvation.

Context {Item Src F : Type}.
Context `{!Iterator Item Src} `{!Functor Item F} `{!Inhabited Item}.

Implicit Types (st : @DispatchState Item Src F) (w : @World Src F)
  (fr : @Frame Item) (tr : list (@Event Item)) (c : IteratorCommand).

Lemma call_inv_iterate_state sched fcts G w : call_inv (iterate_state sched fcts G w).
Proof.
  unfold iterate_state. apply run_schedule_invariant.
  - intros st i Hinv.
    destruct (schedule_one_cases (commands fcts (synchro_next w) G) st i)
      as [->|(c & fr & fr' & w' & evs & Hc & Hi & Hstep & ->)]; [done|].
    intros j frj Hj. simpl in Hj.
    destruct (lookup_insert_frame _ _ _ _ _ _ Hi Hj) as [[-> ->]|[Hne Hj']];
      [|by apply (Hinv j)].
    pose proof (Hinv i fr Hi) as Hme.
    inversion Hstep; subst; simpl in *; try done; try lia.
    + match goal with H : _ !! _ = Some _ |- _ => apply lookup_lt_Some in H end. lia.
    + match goal with H : _ !! _ = Some _ |- _ => by apply lookup_lt_Some in H end.
    + by destruct run.
  - intros i fr. simpl. rewrite list_lookup_fmap.
    destruct (commands fcts (synchro_next w) G !! i); [|done]. by intros [= <-].
Qed.

(** The trace only grows. *)
Lemma run_schedule_trace cmds sched st :
  ∃ evs, trace (run_schedule cmds sched st) = trace st ++ evs.
Proof.
  revert st. induction sched as [|k sched IH]; intros st; simpl.
  - exists []. by rewrite app_nil_r.
  - destruct (IH (schedule_one cmds st k)) as [evs ->].
    destruct (schedule_one_cases cmds st k)
      as [->|(c & fr & fr' & w' & evs' & _ & _ & _ & ->)]; [by exists evs|].
    simpl. exists (evs' ++ evs). by rewrite app_assoc.
Qed.

Lemma schedule_one_other cmds st k i :
  k ≠ i → frames (schedule_one cmds st k) !! i = frames st !! i.
Proof.
  intros Hne.
  destruct (schedule_one_cases cmds st k)
    as [->|(c & fr & fr' & w' & evs & _ & _ & _ & ->)]; [done|].
  simpl. by rewrite list_lookup_insert_ne.
Qed.

(** A command that is in the loop over an empty vector, with [isRunning]
    false, has returned after its next step, whatever the others do. *)
Lemma starved_call_done cmds sched st i c fr j :
  cmds !! i = Some c → frames st !! i = Some fr →
  at_point fr = AtCall j → items fr = [] → isRunning fr = false →
  1 ≤ length (filter (λ k, k = i) sched) →
  ∃ fr', frames (run_schedule cmds sched st) !! i = Some fr' ∧ at_point fr' = Done.
Proof.
  intros Hc. revert st fr.
  induction sched as [|k sched IH]; intros st fr Hi Hp Hits Hrun Hn; simpl in *; [lia|].
  destruct (decide (k = i)) as [->|Hne].
  - exists {| at_point := Done; items := items fr; isRunning := isRunning fr |}.
    split; [|done].
    apply terminated_stable; [|done].
    unfold schedule_one. rewrite Hc, Hi. unfold execute_step. rewrite Hp, Hits, Hrun.
    simpl. apply list_lookup_insert_eq. eauto using lookup_lt_Some.
  - rewrite filter_cons_False in Hn by done.
    apply (IH _ fr); try done. by rewrite schedule_one_other.
Qed.

(** And one that has just made such a fetch, after its next two steps. *)
Lemma starved_unlock_done cmds sched st i c fr :
  cmds !! i = Some c → frames st !! i = Some fr →
  at_point fr = AtUnlock → items fr = [] → isRunning fr = false →
  2 ≤ length (filter (λ k, k = i) sched) →
  ∃ fr', frames (run_schedule cmds sched st) !! i = Some fr' ∧ at_point fr' = Done.
Proof.
  intros Hc. revert st fr.
  induction sched as [|k sched IH]; intros st fr Hi Hp Hits Hrun Hn; simpl in *; [lia|].
  destruct (decide (k = i)) as [->|Hne].
  - rewrite filter_cons_True in Hn by done. simpl in Hn.
    apply (starved_call_done cmds sched _ i c
             {| at_point := AtCall 0; items := items fr; isRunning := isRunning fr |} 0);
      try done; [|lia].
    unfold schedule_one. rewrite Hc, Hi. unfold execute_step. rewrite Hp.
    simpl. apply list_lookup_insert_eq. eauto using lookup_lt_Some.
  - rewrite filter_cons_False in Hn by done.
    apply (IH _ fr); try done. by rewrite schedule_one_other.
Qed.

Lemma starved_later sched sched' fcts G w i :
  starved i (trace (iterate_state sched fcts G w)) →
  starved i (trace (iterate_state (sched ++ sched') fcts G w)).
Proof.
  unfold starved, iterate_state. rewrite run_schedule_app.
  destruct (run_schedule_trace (commands fcts (synchro_next w) G) sched'
              (run_schedule (commands fcts (synchro_next w) G) sched
                 (dispatch_start (commands fcts (synchro_next w) G)
                    (reset_source (newSynchro w).2)
                    [EvNewSynchro (synchro_next w); EvReset]))) as [evs ->].
  rewrite fetches_app. by destruct (fetches i _).
Qed.

(** What a command whose first fetch has returned no item, and false, has
    done, and where it is. *)
Lemma starved_shape sched fcts G w i fr :
  frames (iterate_state sched fcts G w) !! i = Some fr →
  starved i (trace (iterate_state sched fcts G w)) →
  items fr = [] ∧ isRunning fr = false ∧
  (at_point fr = AtUnlock ∧
   command_events i (trace (iterate_state sched fcts G w))
   = [EvLock i (synchro_next w); EvGet i [] false]
   ∨ (at_point fr = AtCall 0 ∨ at_point fr = Done) ∧
     command_events i (trace (iterate_state sched fcts G w))
     = [EvLock i (synchro_next w); EvGet i [] false; EvUnlock i (synchro_next w)]).
Proof.
  intros Hi Hst.
  assert (Hc : ∃ a, commands fcts (synchro_next w) G !! i
                    = Some {| _fct := a; _synchro := synchro_next w; _groupSize := G |}).
  { pose proof (lookup_lt_Some _ _ _ Hi) as Hlt.
    rewrite iterate_state_length in Hlt.
    destruct (lookup_lt_is_Some_2 fcts i Hlt) as [a Ha]. exists a.
    unfold commands. by rewrite list_lookup_fmap, Ha. }
  destruct Hc as [a Hc].
  destruct (script_inv_iterate_state sched fcts G w i _ fr Hc Hi) as [batches Hev].
  pose proof (call_inv_iterate_state sched fcts G w i fr Hi) as Hcall.
  unfold starved in Hst.
  rewrite <-fetches_command_events, Hev, fetches_app, fetches_turns in Hst.
  destruct batches as [|b batches]; [|done].
  rewrite Hev. clear Hev. simpl in *.
  destruct fr as [p its run]. unfold turn_so_far in *. simpl in *.
  destruct p as [| | |j| |[|j]]; simpl in *; try done.
  - rewrite decide_True in Hst by done. injection Hst as -> ->. eauto.
  - rewrite decide_True in Hst by done. injection Hst as -> ->.
    simpl in Hcall. assert (j = 0) as -> by lia. eauto 10.
  - unfold turn in *. simpl in *.
    rewrite decide_True in Hst by done. injection Hst as ->.
    simpl in Hcall. subst run. eauto 10.
  - rewrite decide_True in Hst by done. injection Hst as -> ->. simpl in Hcall. lia.
Qed.

Lemma iterate_completed d fcts G w :
  completed (iterate d fcts G w) = true →
  Forall (λ fr, terminated fr = true) (frames (iterate_state (schedule d) fcts G w)) ∧
  ∀ i, command_events i (outcome_trace (iterate d fcts G w))
       = command_events i (trace (iterate_state (schedule d) fcts G w)).
Proof.
  rewrite iterate_unfold. simpl.
  destruct (forallb finished _) eqn:Hfin; simpl.
  - intros _. apply forallb_finished in Hfin. split.
    + eapply Forall_impl; [exact Hfin|]. intros fr Hp. unfold terminated. by rewrite Hp.
    + intros i. rewrite command_events_app.
      replace (command_events i [EvDeleteSynchro (synchro_next w)])
        with (@nil (@Event Item)); [by rewrite app_nil_r|].
      symmetry. apply command_events_none. by repeat constructor.
  - destruct (forallb terminated _) eqn:Hterm; simpl; [|done].
    intros _. by apply forallb_terminated in Hterm.
Qed.

(** The fetches of a command are among the events of the trace. *)
Lemma fetches_elem_of i tr (b : list Item) more :
  (b, more) ∈ fetches i tr → EvGet i b more ∈ tr.
Proof.
  unfold fetches. rewrite list_elem_of_omap. intros (e & He & Hf).
  destruct e; try done. destruct (decide (i0 = i)) as [->|]; [|done].
  by injection Hf as -> ->.
Qed.

Lemma nonempty_fetch_counts i tr (b : list Item) more :
  EvGet i b more ∈ tr → b ≠ [] → 1 ≤ nonempty_fetches (command_events i tr).
Proof.
  intros Hin Hb. unfold nonempty_fetches.
  assert (Hin' : EvGet i b more
                 ∈ filter (λ e, is_nonempty_get e = true) (command_events i tr)).
  { apply list_elem_of_filter. split; [by destruct b|].
    unfold command_events. by apply list_elem_of_filter. }
  destruct (filter _ (command_events i tr)); [by apply elem_of_nil in Hin'|simpl; lia].
Qed.

End Starvation.

Section SequentialStarvation.

Context {Item F : Type}.
Context `{!Functor Item F} `{!Inhabited Item}.

Implicit Types (st : @DispatchState Item (SequentialSource Item) F)
  (w : @World (SequentialSource Item) F) (fr : @Frame Item).

Lemma fetch_sound_step fcts s G st i :
  1 ≤ G → sound_inv fcts s G st → fetch_inv G st →
  fetch_inv G (schedule_one (commands fcts s G) st i).
Proof.
  intros HG (_ & _ & Hle & Hfrs) (Hfull & Hbound & Hmore).
  destruct (schedule_one_cases (commands fcts s G) st i)
    as [->|(c & fr & fr' & w' & evs & Hc & Hi & Hstep & ->)]; [done|].
  assert (Hfr : frame_sound G fr) by (rewrite Forall_lookup in Hfrs; eauto).
  destruct (frame_sound_moving G _ _ _ _ _ _ _ Hstep Hfr) as (_ & Hsize & Hhead).
  unfold fetch_inv. simpl. rewrite nonempty_fetches_app.
  inversion Hstep; subst; simpl in *;
    try (rewrite Nat.add_0_r; split_and!; [done|done|];
         apply Forall_app; split; [done|by repeat constructor]).
  match goal with H : GetOk _ _ _ = GetOk _ _ _ |- _ => injection H as <- <- <- end.
  simpl. specialize (Hsize Hhead).
  set (n := cursor (source (world st))) in *.
  set (l := content (source (world st))) in *.
  set (f := nonempty_fetches (trace st)) in *.
  assert (Hbatch : length (take (length its) (drop n l)) = G `min` (length l - n)).
  { by rewrite length_take, length_drop, Hsize. }
  destruct (take (length its) (drop n l)) as [|x b] eqn:Hb; simpl in *.
  - rewrite !Nat.add_0_r. split_and!; [done|done|].
    apply Forall_app; split; [done|]. constructor; [|constructor].
    destruct (bool_decide_reflect (n < length l)); [lia|done].
  - assert (Hone : ∀ m, nonempty_fetches [EvGet i (x :: b) m] = 1) by done.
    rewrite !Hone.
    assert (Hn : n < length l) by lia.
    specialize (Hfull Hn).
    destruct (Nat.min_spec G (length l - n)) as [[? Hm]|[? Hm]]; rewrite Hm in Hbatch.
    all: split_and!; [nia|nia|].
    all: apply Forall_app; split; [done|]; constructor; [|constructor].
    all: by destruct (bool_decide _).
Qed.

Lemma fetch_sound_iterate_state sched fcts G w :
  1 ≤ G → fetch_inv G (iterate_state sched fcts G w).
Proof.
  intros HG.
  cut (sound_inv fcts (synchro_next w) G (iterate_state sched fcts G w) ∧
       fetch_inv G (iterate_state sched fcts G w)); [by intros []|].
  pose proof (sound_inv_iterate_state [] fcts G w) as Hsound.
  unfold iterate_state in *. simpl in Hsound.
  apply run_schedule_invariant.
  - intros st i [Hl Hf]. split; [by apply sound_inv_step|by apply fetch_sound_step].
  - split; [done|]. unfold fetch_inv. simpl. split_and!; [lia|lia|by repeat constructor].
Qed.

(** With more commands than batches, whatever the functors do, a command
    has not fetched yet, or has found nothing at its first fetch. *)
Lemma starved_exists sched fcts G w :
  1 ≤ G → ceil_div (length (content (source w))) G < length fcts →
  ∃ i, i < length fcts ∧
       (fetches i (trace (iterate_state sched fcts G w)) = [] ∨
        starved i (trace (iterate_state sched fcts G w))).
Proof.
  intros HG Hmany.
  destruct (fetch_sound_iterate_state sched fcts G w HG) as (_ & Hbound & Hmore).
  destruct (partition_inv_iterate_state sched fcts G w) as (Hcontent & Hle & _).
  set (st := iterate_state sched fcts G w) in *.
  set (N := length (content (source w))) in *.
  assert (Hf : nonempty_fetches (trace st) ≤ ceil_div N G).
  { unfold ceil_div. apply Nat.div_le_lower_bound; [lia|]. nia. }
  destruct (decide (Forall (λ i, 1 ≤ nonempty_fetches (command_events i (trace st)))
                      (seq 0 (length fcts)))) as [Hall|Hnot].
  { pose proof (fetch_pigeonhole (trace st) (seq 0 (length fcts)) (NoDup_seq _ _)) as Hp.
    rewrite length_seq in Hp. rewrite Forall_forall in Hall. specialize (Hp Hall). lia. }
  apply not_Forall_Exists in Hnot; [|intros i; apply _].
  apply Exists_exists in Hnot as (i & Hi & Hnone).
  apply elem_of_seq in Hi as [_ Hi]. simpl in Hi, Hnone.
  exists i. split; [done|].
  destruct (fetches i (trace st)) as [|[b more] rest] eqn:Hfetch; [by left|right].
  assert (Hin : EvGet i b more ∈ trace st).
  { apply fetches_elem_of. rewrite Hfetch. apply list_elem_of_here. }
  assert (Hb : b = []).
  { destruct b as [|x b]; [done|]. exfalso. apply Hnone.
    by apply (nonempty_fetch_counts i (trace st) (x :: b) more). }
  subst b. unfold starved. rewrite Hfetch. simpl.
  rewrite Forall_forall in Hmore. specialize (Hmore _ Hin). simpl in Hmore.
  by destruct more.
Qed.

(** A command that has terminated has made a fetch. *)
Lemma terminated_has_fetched sched fcts G w i fr :
  frames (iterate_state sched fcts G w) !! i = Some fr → terminated fr = true →
  fetches i (trace (iterate_state sched fcts G w)) ≠ [].
Proof.
  intros Hi Hterm.
  assert (Hc : ∃ a, commands fcts (synchro_next w) G !! i
                    = Some {| _fct := a; _synchro := synchro_next w; _groupSize := G |}).
  { pose proof (lookup_lt_Some _ _ _ Hi) as Hlt.
    rewrite iterate_state_length in Hlt.
    destruct (lookup_lt_is_Some_2 fcts i Hlt) as [a Ha]. exists a.
    unfold commands. by rewrite list_lookup_fmap, Ha. }
  destruct Hc as [a Hc].
  destruct (script_inv_iterate_state sched fcts G w i _ fr Hc Hi) as [batches Hev].
  destruct (sound_inv_iterate_state sched fcts G w) as (_ & _ & _ & Hfrs).
  assert (Hfr : frame_sound G fr) by (rewrite Forall_lookup in Hfrs; eauto).
  rewrite <-fetches_command_events, Hev, fetches_app.
  intros [_ Hnil]%app_eq_nil. revert Hnil.
  destruct fr as [p its run]. unfold terminated, frame_sound, turn_so_far in *. simpl in *.
  destruct p as [| | |j| |[|j]]; try done; unfold turn; simpl; by rewrite decide_True.
Qed.

(** When the dispatch has completed with more commands than batches, a
    command has done nothing but lock, fetch no item and unlock. *)
Lemma starved_completed d fcts G w :
  1 ≤ G → ceil_div (length (content (source w))) G < length fcts →
  completed (iterate d fcts G w) = true →
  ∃ i, i < length fcts ∧
       command_events i (outcome_trace (iterate d fcts G w))
       = [EvLock i (synchro_next w); EvGet i [] false; EvUnlock i (synchro_next w)].
Proof.
  intros HG Hmany Hdone.
  destruct (iterate_completed d fcts G w Hdone) as [Hterm Htr].
  destruct (starved_exists (schedule d) fcts G w HG Hmany) as (i & Hi & Hst).
  exists i. split; [done|]. rewrite Htr.
  destruct (lookup_lt_is_Some_2 (frames (iterate_state (schedule d) fcts G w)) i)
    as [fr Hfr]; [by rewrite iterate_state_length|].
  assert (Hfrt : terminated fr = true) by (rewrite Forall_lookup in Hterm; eauto).
  destruct Hst as [Hnone|Hst];
    [by destruct (terminated_has_fetched (schedule d) fcts G w i fr Hfr Hfrt)|].
  destruct (starved_shape (schedule d) fcts G w i fr Hfr Hst)
    as (_ & _ & [[Hp _]|[_ Hev]]); [|done].
  unfold terminated in Hfrt. by rewrite Hp in Hfrt.
Qed.

End SequentialStarvation.

(** ** The overload for one functor *)

Section Overload.

Context {Item Src F : Type}.
Context `{!Iterator Item Src} `{!Functor Item F} `{!Inhabited Item}.


End Overload.


(** * The properties of the specification *)

(** C1, partition completeness.  Over a sequential source, with at least one
    functor, a group size of at least one, functors that are alive and do
    not raise: whenever [iterate] returns, the items passed to all the
    functors together are, as a multiset, the whole sequence of the source:
    none is missing, none is passed twice.  And [iterate] does return: with
    a backend that gives every command a step in turn for enough rounds,
    and, however the commands have been scheduled so far, with some way of
    scheduling them further. *)
Theorem partition_completeness {Item F : Type} `{!Functor Item F} `{!Inhabited Item}
  (fcts : list nat) (G : nat) (w : @World (SequentialSource Item) F) :
  1 ≤ length fcts → 1 ≤ G →
  (∀ (f : F) (x : Item), is_Some (call f x)) →
  (∀ a, a ∈ fcts → is_Some (functors w !! a)) →
  (∀ d w' tr, iterate d fcts G w = Returned w' tr →
     called_items tr ≡ₚ content (source w)) ∧
  (∀ units rounds,
     (length fcts + length (content (source w))) * (G + 4) ≤ rounds →
     ∃ w' tr,
       iterate (round_robin_dispatcher units (length fcts) rounds) fcts G w
       = Returned w' tr) ∧
  (∀ units sched, ∃ sched' w' tr,
     iterate {| getExecutionUnitsNumber := units; schedule := sched ++ sched' |} fcts G w
     = Returned w' tr).
Proof.
  intros HW HG Htotal Hfct. split_and!.
  - intros d w' tr Hret. eapply partition_safety; [|exact Hret].
    intros ->. simpl in HW. lia.
  - intros units rounds. by apply iterate_round_robin_returns.
  - intros units sched. by apply iterate_can_return.
Qed.

Lemma partition_completeness_witness :
  let w := {| source := {| content := [10; 20; 30; 40; 50]; cursor := 3 |};
              synchros := ∅; synchro_next := 0;
              functors := {[ 0 := 0; 1 := 0; 2 := 0 ]} |} in
  (∀ d w' tr, iterate d [0; 1; 2] 2 w = Returned w' tr →
     called_items tr ≡ₚ [10; 20; 30; 40; 50]) ∧
  (∀ units rounds,
     (3 + 5) * (2 + 4) ≤ rounds →
     ∃ w' tr,
       iterate (round_robin_dispatcher units 3 rounds) [0; 1; 2] 2 w = Returned w' tr) ∧
  (∀ units sched, ∃ sched' w' tr,
     iterate {| getExecutionUnitsNumber := units; schedule := sched ++ sched' |}
       [0; 1; 2] 2 w = Returned w' tr).
Proof.
  intros w. apply (partition_completeness [0; 1; 2] 2 w).
  - simpl. lia.
  - lia.
  - intros f x. by eexists.
  - intros a Ha.
    repeat (apply elem_of_cons in Ha as [->|Ha]; [by eexists|]).
    by apply elem_of_nil in Ha.
Defined.

(** C2 as the specification has it does not hold: [get] raises under the
    first command, which terminates with the synchronizer locked; the second
    command waits for it ever after and the dispatch does not end. *)
Lemma scoped_release_counterexample :
  let w := {| source := (); synchros := ∅; synchro_next := 0;
              functors := {[ 0 := 0; 1 := 0 ]} |} in
  let st := iterate_state [0; 0; 0; 1; 1; 0; 1] [0; 1] 1000 w in
  at_point <$> frames st = [Raised InGet; AtLock] ∧
  synchros (world st) !! 0 = Some (Held 0) ∧
  trace st = [EvNewSynchro 0; EvReset; EvDispatch 2; EvLock 0 0; EvGetRaise 0] ∧
  ¬ released_on_fetch_failure 0 st.
Proof.
  intros w st.
  assert (Hfr : frames st !! 0 = Some {| at_point := Raised InGet;
                                         items := replicate 1000 0;
                                         isRunning := true |}) by (by vm_compute).
  assert (Hs : synchros (world st) !! 0 = Some (Held 0)) by (by vm_compute).
  split_and!; [by vm_compute|done|by vm_compute|].
  intros Hrel. by apply (Hrel 0 _ Hfr).
Qed.

(** C2, amended.  When [get] returns, the command releases the synchronizer
    by its next statement, and it does not hold it while it is in the loop
    over the fetched items.  When [get] raises, the command terminates
    without [unlock]: it holds the synchronizer then, and whatever is
    scheduled next. *)
Theorem fetch_failure_keeps_lock {Item Src F : Type}
  `{!Iterator Item Src} `{!Functor Item F} `{!Inhabited Item}
  (sched : list nat) (fcts : list nat) (G : nat) (w : @World Src F) (i : nat)
  (fr : @Frame Item) :
  frames (iterate_state sched fcts G w) !! i = Some fr →
  (at_point fr = Raised InGet →
     ∀ sched',
       frames (iterate_state (sched ++ sched') fcts G w) !! i = Some fr ∧
       synchros (world (iterate_state (sched ++ sched') fcts G w)) !! synchro_next w
       = Some (Held i)) ∧
  (at_point fr = AtUnlock →
     at_point <$> frames (iterate_state (sched ++ [i]) fcts G w) !! i = Some (AtCall 0) ∧
     synchros (world (iterate_state (sched ++ [i]) fcts G w)) !! synchro_next w
     = Some Free) ∧
  (∀ j, at_point fr = AtCall j →
     synchros (world (iterate_state sched fcts G w)) !! synchro_next w ≠ Some (Held i)).
Proof.
  intros Hi. split_and!.
  - intros Hp sched'.
    assert (Hi' : frames (iterate_state (sched ++ sched') fcts G w) !! i = Some fr).
    { unfold iterate_state in *. rewrite run_schedule_app.
      apply terminated_stable; [done|]. unfold terminated. by rewrite Hp. }
    split; [done|].
    destruct (lock_inv_iterate_state (sched ++ sched') fcts G w) as [_ Hhold].
    apply (Hhold i fr Hi'). by rewrite Hp.
  - intros Hp.
    assert (Hc : ∃ a, commands fcts (synchro_next w) G !! i
                      = Some {| _fct := a; _synchro := synchro_next w; _groupSize := G |}).
    { pose proof (lookup_lt_Some _ _ _ Hi) as Hlt.
      rewrite iterate_state_length in Hlt.
      destruct (lookup_lt_is_Some_2 fcts i Hlt) as [a Ha]. exists a.
      unfold commands. by rewrite list_lookup_fmap, Ha. }
    destruct Hc as [a Hc].
    unfold iterate_state in *. rewrite run_schedule_snoc.
    unfold schedule_one. rewrite Hc, Hi. unfold execute_step. rewrite Hp. simpl.
    rewrite list_lookup_insert_eq by eauto using lookup_lt_Some.
    by rewrite lookup_insert_eq.
  - intros j Hp Hheld.
    destruct (lock_inv_iterate_state sched fcts G w) as [_ Hhold].
    apply (Hhold i fr Hi) in Hheld. by rewrite Hp in Hheld.
Qed.

Lemma fetch_failure_keeps_lock_witness :
  let w := {| source := (); synchros := ∅; synchro_next := 0;
              functors := {[ 0 := 0; 1 := 0 ]} |} in
  let fr := {| at_point := Raised InGet; items := replicate 3 0; isRunning := true |} in
  frames (iterate_state [0; 0] [0; 1] 3 w) !! 0 = Some fr ∧
  ∀ sched',
    frames (iterate_state ([0; 0] ++ sched') [0; 1] 3 w) !! 0 = Some fr ∧
    synchros (world (iterate_state ([0; 0] ++ sched') [0; 1] 3 w)) !! 0 = Some (Held 0).
Proof.
  intros w fr.
  assert (Hfr : frames (iterate_state [0; 0] [0; 1] 3 w) !! 0 = Some fr)
    by (vm_compute; reflexivity).
  split; [exact Hfr|].
  exact (proj1 (fetch_failure_keeps_lock [0; 0] [0; 1] 3 w 0 fr Hfr) eq_refl).
Defined.

(** C3 as the specification has it does not hold: with no functor at all,
    and with a group size of zero, [iterate] dispatches and returns as for
    any other call; in the second case a command has run. *)
Lemma configuration_error_counterexample :
  let w := {| source := {| content := []; cursor := 0 |};
              synchros := ∅; synchro_next := 0;
              functors := {[ 0 := 0 ]} |} in
  outcome_trace (iterate (serial_dispatcher 0 8) [] 1000 w)
  = [EvNewSynchro 0; EvReset; EvDispatch 0; EvDeleteSynchro 0] ∧
  ¬ configuration_error (iterate (serial_dispatcher 0 8) [] 1000 w) ∧
  outcome_trace (iterate (serial_dispatcher 1 8) [0] 0 w)
  = [EvNewSynchro 0; EvReset; EvDispatch 1;
     EvLock 0 0; EvGet 0 [] false; EvUnlock 0 0; EvDeleteSynchro 0] ∧
  ¬ configuration_error (iterate (serial_dispatcher 1 8) [0] 0 w).
Proof.
  intros w.
  assert (H1 : ∃ w', iterate (serial_dispatcher 0 8) [] 1000 w
                     = Returned w' [EvNewSynchro 0; EvReset; EvDispatch 0;
                                    EvDeleteSynchro 0])
    by (eexists; vm_compute; reflexivity).
  assert (H2 : ∃ w', iterate (serial_dispatcher 1 8) [0] 0 w
                     = Returned w' [EvNewSynchro 0; EvReset; EvDispatch 1;
                                    EvLock 0 0; EvGet 0 [] false; EvUnlock 0 0;
                                    EvDeleteSynchro 0])
    by (eexists; vm_compute; reflexivity).
  destruct H1 as [w1 H1], H2 as [w2 H2]. rewrite H1, H2. simpl.
  split_and!; try done; by intros (? & ? & ? & ?).
Qed.

(** C3, amended.  [iterate] checks neither the list of functors nor the
    group size, and reports no configuration error.  With an empty list, or
    with a group size of zero, the synchronizer is made, the source is
    reset and the commands (none, for an empty list) are dispatched as for
    any call, and no functor is ever invoked; with an empty list [iterate]
    returns, the synchronizer deleted. *)
Theorem iterate_without_validation {Item F : Type} `{!Functor Item F} `{!Inhabited Item}
  (d : ICommandDispatcher) (fcts : list nat) (G : nat)
  (w : @World (SequentialSource Item) F) :
  fcts = [] ∨ G = 0 →
  ¬ configuration_error (iterate d fcts G w) ∧
  (∃ rest, outcome_trace (iterate d fcts G w)
           = [EvNewSynchro (synchro_next w); EvReset; EvDispatch (length fcts)] ++ rest) ∧
  called_items (outcome_trace (iterate d fcts G w)) = [] ∧
  (fcts = [] →
     iterate d fcts G w
     = Returned (delete_synchro (synchro_next w) (reset_source (newSynchro w).2))
         [EvNewSynchro (synchro_next w); EvReset; EvDispatch 0;
          EvDeleteSynchro (synchro_next w)]).
Proof.
  intros Hcfg.
  destruct (iterate_trace d fcts G w) as [rest Hrest].
  split_and!.
  - intros (w' & tr & Ho & Hno). rewrite Ho in Hrest. simpl in Hrest. subst tr.
    apply (Hno (length fcts)). do 2 apply list_elem_of_further. apply list_elem_of_here.
  - eauto.
  - destruct (no_items_iterate_state (schedule d) fcts G w Hcfg) as [_ Hcalled].
    rewrite iterate_unfold. simpl.
    repeat case_match; simpl; rewrite ?called_items_app, ?Hcalled; done.
  - intros ->. rewrite iterate_unfold. unfold iterate_state.
    change (commands [] (synchro_next w) G) with (@nil IteratorCommand).
    by rewrite run_schedule_nil.
Qed.

Lemma iterate_without_validation_witness :
  let w := {| source := {| content := [10; 20; 30]; cursor := 1 |};
              synchros := ∅; synchro_next := 0;
              functors := {[ 0 := 0 ]} |} in
  ¬ configuration_error (iterate (round_robin_dispatcher 1 1 5) [0] 0 w) ∧
  (∃ rest, outcome_trace (iterate (round_robin_dispatcher 1 1 5) [0] 0 w)
           = [EvNewSynchro 0; EvReset; EvDispatch 1] ++ rest) ∧
  called_items (outcome_trace (iterate (round_robin_dispatcher 1 1 5) [0] 0 w)) = [] ∧
  ([0] = [] →
     iterate (round_robin_dispatcher 1 1 5) [0] 0 w
     = Returned (delete_synchro 0 (reset_source (newSynchro w).2))
         [EvNewSynchro 0; EvReset; EvDispatch 0; EvDeleteSynchro 0]).
Proof.
  intros w.
  apply (iterate_without_validation (round_robin_dispatcher 1 1 5) [0] 0 w).
  right. reflexivity.
Defined.

(** C4, a command that finds nothing at its first fetch.  Whatever the
    iterator, the functors, the group size and the scheduling: a command
    whose first fetch has returned no item, and false, has locked, fetched
    and (one step later) unlocked, and nothing else; it invokes its functor
    on no item, and it has returned from [execute] once it has been given
    two more steps, whatever the other commands do in between.  Over a
    sequential source of [N] items, with a group size [G] of at least one
    and more commands than [ceil_div N G]: at any time some command has not
    fetched yet or has found nothing at its first fetch; when the dispatch
    has completed, some command has done nothing but lock, fetch no item and
    unlock; and this is no error: with functors that are alive and do not
    raise, [iterate] returns, all the items passed to the functors. *)
Theorem zero_length_first_batch {Item Src F : Type}
  `{!Iterator Item Src} `{!Functor Item F} `{!Inhabited Item}
  (sched : list nat) (fcts : list nat) (G : nat) :
  (∀ (w : @World Src F) (i : nat) (fr : @Frame Item),
     frames (iterate_state sched fcts G w) !! i = Some fr →
     starved i (trace (iterate_state sched fcts G w)) →
     (at_point fr = AtUnlock ∧
      command_events i (trace (iterate_state sched fcts G w))
      = [EvLock i (synchro_next w); EvGet i [] false]
      ∨ (at_point fr = AtCall 0 ∨ at_point fr = Done) ∧
        command_events i (trace (iterate_state sched fcts G w))
        = [EvLock i (synchro_next w); EvGet i [] false; EvUnlock i (synchro_next w)]) ∧
     ∀ sched', 2 ≤ length (filter (λ k, k = i) sched') →
       ∃ fr',
         frames (iterate_state (sched ++ sched') fcts G w) !! i = Some fr' ∧
         at_point fr' = Done ∧
         command_events i (trace (iterate_state (sched ++ sched') fcts G w))
         = [EvLock i (synchro_next w); EvGet i [] false; EvUnlock i (synchro_next w)]) ∧
  (∀ w : @World (SequentialSource Item) F,
     1 ≤ G → ceil_div (length (content (source w))) G < length fcts →
     (∃ i, i < length fcts ∧
           (fetches i (trace (iterate_state sched fcts G w)) = [] ∨
            starved i (trace (iterate_state sched fcts G w)))) ∧
     (∀ d, completed (iterate d fcts G w) = true →
        ∃ i, i < length fcts ∧
             command_events i (outcome_trace (iterate d fcts G w))
             = [EvLock i (synchro_next w); EvGet i [] false;
                EvUnlock i (synchro_next w)]) ∧
     ((∀ (f : F) (x : Item), is_Some (call f x)) →
      (∀ a, a ∈ fcts → is_Some (functors w !! a)) →
      ∀ units rounds,
        (length fcts + length (content (source w))) * (G + 4) ≤ rounds →
        ∃ w' tr,
          iterate (round_robin_dispatcher units (length fcts) rounds) fcts G w
          = Returned w' tr ∧
          called_items tr ≡ₚ content (source w) ∧
          ∃ i, i < length fcts ∧
               command_events i tr
               = [EvLock i (synchro_next w); EvGet i [] false;
                  EvUnlock i (synchro_next w)])).
Proof.
  split.
  - intros w i fr Hi Hst.
    destruct (starved_shape sched fcts G w i fr Hi Hst) as (Hits & Hrun & Hshape).
    split; [done|]. intros sched' Hn.
    assert (Hc : ∃ c, commands fcts (synchro_next w) G !! i = Some c).
    { apply lookup_lt_is_Some_2. unfold commands. rewrite length_fmap.
      rewrite <-(iterate_state_length sched fcts G w). eauto using lookup_lt_Some. }
    destruct Hc as [c Hc].
    assert (Hdone : ∃ fr', frames (iterate_state (sched ++ sched') fcts G w) !! i = Some fr'
                           ∧ at_point fr' = Done).
    { unfold iterate_state in *. rewrite run_schedule_app.
      destruct Hshape as [[Hp _]|[[Hp|Hp] _]].
      - by apply (starved_unlock_done _ _ _ _ c fr).
      - apply (starved_call_done _ _ _ _ c fr 0); try done. lia.
      - exists fr. split; [|done]. apply terminated_stable; [done|].
        unfold terminated. by rewrite Hp. }
    destruct Hdone as (fr' & Hi' & Hp'). exists fr'. split_and!; [done|done|].
    destruct (starved_shape (sched ++ sched') fcts G w i fr' Hi'
                (starved_later sched sched' fcts G w i Hst))
      as (_ & _ & [[Hp _]|[_ Hev]]); [congruence|done].
  - intros w HG Hmany. split_and!.
    + by apply starved_exists.
    + intros d. by apply starved_completed.
    + intros Htotal Hfct units rounds Hrounds.
      destruct (iterate_round_robin_returns Htotal units rounds fcts G w HG Hfct Hrounds)
        as (w' & tr & Hret).
      exists w', tr. split_and!; [done| |].
      * apply (partition_safety (round_robin_dispatcher units (length fcts) rounds)
                 fcts G w w' tr); [|done].
        intros ->. simpl in Hmany. lia.
      * pose proof (starved_completed
                      (round_robin_dispatcher units (length fcts) rounds) fcts G w HG Hmany)
          as Hstarved.
        rewrite Hret in Hstarved. by apply Hstarved.
Qed.

Lemma zero_length_first_batch_witness :
  let w := {| source := {| content := [10; 20; 30; 40; 50]; cursor := 0 |};
              synchros := ∅; synchro_next := 0;
              functors := {[ 0 := 0; 1 := 0; 2 := 0 ]} |} in
  let st := iterate_state [0; 0; 0; 1; 1] [0; 1; 2] 10 w in
  (frames st !! 1 = Some {| at_point := AtUnlock; items := []; isRunning := false |} ∧
   starved 1 (trace st)) ∧
  (∀ sched', 2 ≤ length (filter (λ k, k = 1) sched') →
     ∃ fr',
       frames (iterate_state ([0; 0; 0; 1; 1] ++ sched') [0; 1; 2] 10 w) !! 1 = Some fr' ∧
       at_point fr' = Done ∧
       command_events 1 (trace (iterate_state ([0; 0; 0; 1; 1] ++ sched') [0; 1; 2] 10 w))
       = [EvLock 1 0; EvGet 1 [] false; EvUnlock 1 0]) ∧
  ∃ w' tr,
    iterate (round_robin_dispatcher 3 3 112) [0; 1; 2] 10 w = Returned w' tr ∧
    called_items tr ≡ₚ [10; 20; 30; 40; 50] ∧
    ∃ i, i < 3 ∧ command_events i tr = [EvLock i 0; EvGet i [] false; EvUnlock i 0].
Proof.
  intros w st.
  assert (Hfr : frames st !! 1
                = Some {| at_point := AtUnlock; items := []; isRunning := false |})
    by (vm_compute; reflexivity).
  assert (Hst : starved 1 (trace st)) by (vm_compute; reflexivity).
  destruct (zero_length_first_batch (Item := nat) (Src := SequentialSource nat) (F := nat)
              [0; 0; 0; 1; 1] [0; 1; 2] 10) as [Hone Hmany].
  split_and!; [done|done|exact (proj2 (Hone w 1 _ Hfr Hst))|].
  assert (Hceil : ceil_div 5 10 < 3) by (vm_compute; lia).
  assert (HG : 1 ≤ 10) by lia.
  destruct (Hmany w HG Hceil) as (_ & _ & Hreturns).
  apply (Hreturns ltac:(intros f x; by eexists)); [|simpl; lia].
  intros a Ha.
  repeat (apply elem_of_cons in Ha as [->|Ha]; [by eexists|]).
  by apply elem_of_nil in Ha.
Defined.

(** C5, the synchronizer is not held across the processing.  In every state
    a dispatch can reach, a command that is in its loop over the fetched
    items (before an invocation of its functor, or between two), or out of
    which an exception of its functor has gone, does not hold the
    synchronizer. *)
Theorem lock_released_before_call {Item Src F : Type}
  `{!Iterator Item Src} `{!Functor Item F} `{!Inhabited Item}
  (sched : list nat) (fcts : list nat) (G : nat) (w : @World Src F) (i j : nat)
  (fr : @Frame Item) :
  frames (iterate_state sched fcts G w) !! i = Some fr →
  at_point fr = AtCall j ∨ at_point fr = Raised (InCall j) →
  synchros (world (iterate_state sched fcts G w)) !! synchro_next w ≠ Some (Held i).
Proof.
  intros Hi Hp Hheld.
  destruct (lock_inv_iterate_state sched fcts G w) as [_ Hhold].
  apply (Hhold i fr Hi) in Hheld. by destruct Hp as [Hp|Hp]; rewrite Hp in Hheld.
Qed.

Lemma lock_released_before_call_witness :
  let w := {| source := {| content := [10; 20; 30]; cursor := 0 |};
              synchros := ∅; synchro_next := 0;
              functors := {[ 0 := 0; 1 := 0 ]} |} in
  synchros (world (iterate_state [0; 0; 0; 1; 0] [0; 1] 2 w)) !! 0 ≠ Some (Held 0).
Proof.
  intros w.
  apply (lock_released_before_call [0; 0; 0; 1; 0] [0; 1] 2 w 0 1
           {| at_point := AtCall 1; items := [10; 20]; isRunning := true |}).
  - vm_compute. reflexivity.
  - left. reflexivity.
Defined.

(** C6, the order within one command.  At any time the events of a command
    are complete turns of its loop, one after the other, and then the turn
    it is in; a turn is the lock, the fetch of a batch, the unlock, then the
    invocations of the functor on the items of that batch from index 0 on.
    So a batch is processed entirely, in the order of the source, before the
    next one is fetched. *)
Theorem per_command_ordering {Item Src F : Type}
  `{!Iterator Item Src} `{!Functor Item F} `{!Inhabited Item}
  (sched : list nat) (fcts : list nat) (G : nat) (w : @World Src F) (i a : nat)
  (fr : @Frame Item) :
  fcts !! i = Some a →
  frames (iterate_state sched fcts G w) !! i = Some fr →
  let c := {| _fct := a; _synchro := synchro_next w; _groupSize := G |} in
  ∃ batches : list (list Item),
    command_events i (trace (iterate_state sched fcts G w))
    = (batches ≫= λ b, turn c i b true) ++ turn_so_far c i fr.
Proof.
  intros Ha Hi c.
  apply (script_inv_iterate_state sched fcts G w i c fr); [|done].
  unfold commands. by rewrite list_lookup_fmap, Ha.
Qed.

Lemma per_command_ordering_witness :
  let w := {| source := {| content := [10; 20; 30]; cursor := 0 |};
              synchros := ∅; synchro_next := 0;
              functors := {[ 0 := 0; 1 := 0 ]} |} in
  let c := {| _fct := 0; _synchro := 0; _groupSize := 2 |} in
  let fr := {| at_point := AtCall 1; items := [10; 20]; isRunning := true |} in
  ∃ batches : list (list nat),
    command_events 0 (trace (iterate_state [0; 0; 0; 1; 0] [0; 1] 2 w))
    = (batches ≫= λ b, turn c 0 b true) ++ turn_so_far c 0 fr.
Proof.
  intros w c fr.
  apply (per_command_ordering [0; 0; 0; 1; 0] [0; 1] 2 w 0 0 fr).
  - reflexivity.
  - vm_compute. reflexivity.
Defined.



(** C8, the reset precedes the dispatch.  The trace of every call of
    [iterate] begins with the creation of the synchronizer, the reset of the
    source and the dispatch, in that order, and all that follows are events
    of the commands (and the deletion of the synchronizer): no command
    fetches before the reset.  Over a sequential source the call does not
    depend on where the cursor was: it goes as if the cursor was at the
    start, and the first fetch that returns has the first [G] items of the
    source. *)
Theorem reset_precedes_dispatch {Item F : Type} `{!Functor Item F} `{!Inhabited Item}
  (d : ICommandDispatcher) (fcts : list nat) (G : nat)
  (w : @World (SequentialSource Item) F) :
  (∃ rest,
     outcome_trace (iterate d fcts G w)
     = [EvNewSynchro (synchro_next w); EvReset; EvDispatch (length fcts)] ++ rest ∧
     Forall (λ e, command_event_ok fcts (synchro_next w) e ∨
                  e = EvDeleteSynchro (synchro_next w)) rest) ∧
  iterate d fcts G w
  = iterate d fcts G
      {| source := {| content := content (source w); cursor := 0 |};
         synchros := synchros w; synchro_next := synchro_next w;
         functors := functors w |} ∧
  (∀ b, first_fetch (outcome_trace (iterate d fcts G w)) = Some b →
     b = take G (content (source w))).
Proof.
  split_and!; [apply iterate_trace_ok|done|].
  intros b. rewrite iterate_unfold. simpl.
  pose proof (first_fetch_inv_iterate_state (schedule d) fcts G w) as Hinv.
  unfold first_fetch_inv in Hinv.
  assert (Hb : first_fetch (trace (iterate_state (schedule d) fcts G w)) = Some b →
               b = take G (content (source w))).
  { intros Hf. by rewrite Hf in Hinv. }
  destruct (forallb finished _); [|destruct (forallb terminated _); exact Hb].
  simpl. rewrite first_fetch_app.
  destruct (first_fetch (trace _)) as [b'|]; [|done].
  intros [= <-]. by apply Hb.
Qed.

(** C9 as the specification has it does not hold: the functor raises on the
    first item, the dispatch completes with its only command terminated, and
    [iterate] is left without [delete synchro]: the synchronizer is still
    alive, free.  When it is [get] that raises, the synchronizer is left
    alive and held. *)
Lemma synchronizer_not_destroyed_counterexample :
  let w := {| source := {| content := [10; 20; 30]; cursor := 0 |};
              synchros := ∅; synchro_next := 0;
              functors := {[ 0 := () ]} |} in
  let o := iterate (serial_dispatcher 1 8) [0] 2 w in
  let w2 := {| source := (); synchros := ∅; synchro_next := 0;
               functors := {[ 0 := 0 ]} |} in
  let o2 := iterate (serial_dispatcher 1 8) [0] 2 w2 in
  completed o = true ∧
  outcome_trace o
  = [EvNewSynchro 0; EvReset; EvDispatch 1;
     EvLock 0 0; EvGet 0 [10; 20] true; EvUnlock 0 0; EvCallRaise 0 0 10] ∧
  synchros (outcome_world o) !! 0 = Some Free ∧
  ¬ destroyed_after_dispatch 0 o ∧
  completed o2 = true ∧
  outcome_trace o2
  = [EvNewSynchro 0; EvReset; EvDispatch 1; EvLock 0 0; EvGetRaise 0] ∧
  synchros (outcome_world o2) !! 0 = Some (Held 0) ∧
  ¬ destroyed_after_dispatch 0 o2.
Proof.
  intros w o w2 o2.
  assert (Hc : completed o = true) by (by vm_compute).
  assert (Hs : synchros (outcome_world o) !! 0 = Some Free) by (by vm_compute).
  assert (Hc2 : completed o2 = true) by (by vm_compute).
  assert (Hs2 : synchros (outcome_world o2) !! 0 = Some (Held 0)) by (by vm_compute).
  split_and!; [done|by vm_compute|done| |done|by vm_compute|done|].
  - intros Hd. specialize (Hd Hc). congruence.
  - intros Hd. specialize (Hd Hc2). congruence.
Qed.

(** C9, amended.  Every call of [iterate], however it ends, makes one
    synchronizer, first of all; every lock and unlock of its commands is on
    that synchronizer, and no other synchronizer is touched; no call of
    [iterate] made later (the count of the synchronizers made has grown, as
    it has after this call) has an event on it.  The synchronizer is deleted,
    last of all, when the call returns, and it is then no longer alive; when
    the call does not return, an exception having left the dispatch, it is
    not deleted and it stays alive. *)
Theorem synchronizer_lifecycle {Item Src F : Type}
  `{!Iterator Item Src} `{!Functor Item F} `{!Inhabited Item}
  (d : ICommandDispatcher) (fcts : list nat) (G : nat) (w : @World Src F) :
  let s := synchro_next w in
  let o := iterate d fcts G w in
  (∃ mid,
     outcome_trace o
     = [EvNewSynchro s; EvReset; EvDispatch (length fcts)] ++ mid
       ++ (if returned o then [EvDeleteSynchro s] else []) ∧
     Forall (command_event_ok fcts s) mid) ∧
  Forall (λ s', s' = s) (trace_synchros (outcome_trace o)) ∧
  synchro_next (outcome_world o) = S s ∧
  (∀ s', s' ≠ s → synchros (outcome_world o) !! s' = synchros w !! s') ∧
  (if returned o then synchros (outcome_world o) !! s = None
   else is_Some (synchros (outcome_world o) !! s) ∧
        EvDeleteSynchro s ∉ outcome_trace o) ∧
  (∀ d2 fcts2 G2 (w1 : @World Src F),
     s < synchro_next w1 →
     ∀ s1 s2, s1 ∈ trace_synchros (outcome_trace o) →
              s2 ∈ trace_synchros (outcome_trace (iterate d2 fcts2 G2 w1)) → s1 ≠ s2).
Proof.
  cbv zeta.
  assert (Hsyn : ∀ d fcts G (w : @World Src F),
    Forall (λ s', s' = synchro_next w)
      (trace_synchros (outcome_trace (iterate d fcts G w)))).
  { clear. intros d fcts G w. rewrite iterate_unfold. simpl.
    destruct (iterate_state_trace (schedule d) fcts G w) as (mid & Hmid & Hok).
    assert (Hst : Forall (λ s', s' = synchro_next w)
                    (trace_synchros (trace (iterate_state (schedule d) fcts G w)))).
    { rewrite Hmid. unfold trace_synchros. rewrite omap_app. simpl.
      constructor; [done|]. by apply trace_synchros_ok with fcts. }
    destruct (forallb finished _); [|by destruct (forallb terminated _)].
    simpl. unfold trace_synchros in *. rewrite omap_app.
    apply Forall_app. split; [done|]. by repeat constructor. }
  destruct (iterate_state_trace (schedule d) fcts G w) as (mid & Hmid & Hok).
  destruct (iterate_state_world (schedule d) fcts G w) as (Hnext & _ & Hother).
  destruct (lock_inv_iterate_state (schedule d) fcts G w) as [Hlock _].
  assert (Halive : is_Some (synchros (world (iterate_state (schedule d) fcts G w)) !! synchro_next w)).
  { destruct Hlock as [Hl|(k & Hl & _)]; rewrite Hl; by eexists. }
  assert (Hnodel : EvDeleteSynchro (synchro_next w) ∉ trace (iterate_state (schedule d) fcts G w)).
  { rewrite Hmid. intros [Hin|Hin]%elem_of_app.
    - repeat (apply elem_of_cons in Hin as [Hin|Hin]; [done|]).
      by apply elem_of_nil in Hin.
    - rewrite Forall_forall in Hok. by apply Hok in Hin. }
  split_and!.
  - exists mid. split; [|done]. rewrite iterate_unfold. simpl.
    destruct (forallb finished _); simpl.
    + by rewrite Hmid, <-app_assoc.
    + destruct (forallb terminated _); simpl; by rewrite Hmid, app_nil_r.
  - apply Hsyn.
  - rewrite iterate_unfold. simpl. by repeat case_match.
  - intros s' Hs'. rewrite iterate_unfold. simpl.
    destruct (forallb finished _); simpl.
    + rewrite lookup_delete_ne by done. by apply Hother.
    + destruct (forallb terminated _); simpl; by apply Hother.
  - rewrite iterate_unfold. simpl.
    destruct (forallb finished _); simpl; [apply lookup_delete_eq|].
    by destruct (forallb terminated _).
  - intros d2 fcts2 G2 w1 Hlater s1 s2 Hs1 Hs2.
    pose proof (Hsyn d fcts G w) as H1. pose proof (Hsyn d2 fcts2 G2 w1) as H2.
    rewrite Forall_forall in H1, H2.
    rewrite (H1 s1 Hs1), (H2 s2 Hs2). lia.
Qed.

Lemma synchronizer_lifecycle_witness :
  let w := {| source := {| content := [10; 20; 30]; cursor := 0 |};
              synchros := ∅; synchro_next := 4;
              functors := {[ 0 := () ]} |} in
  let o := iterate (serial_dispatcher 1 8) [0] 2 w in
  let o' := iterate (serial_dispatcher 1 8) [] 2 (outcome_world o) in
  returned o = false ∧
  (is_Some (synchros (outcome_world o) !! 4) ∧ EvDeleteSynchro 4 ∉ outcome_trace o) ∧
  returned o' = true ∧
  synchros (outcome_world o') !! 5 = None ∧
  ∀ s1 s2, s1 ∈ trace_synchros (outcome_trace o) →
           s2 ∈ trace_synchros (outcome_trace o') → s1 ≠ s2.
Proof.
  intros w o o'.
  assert (Hr : returned o = false) by (by vm_compute).
  assert (Hr' : returned o' = true) by (by vm_compute).
  assert (Hn' : synchro_next (outcome_world o) = 5) by (by vm_compute).
  pose proof (synchronizer_lifecycle (serial_dispatcher 1 8) [0] 2 w) as H1.
  pose proof (synchronizer_lifecycle (serial_dispatcher 1 8) [] 2 (outcome_world o)) as H2.
  cbv zeta in H1, H2. fold o in H1. fold o' in H2.
  destruct H1 as (_ & _ & _ & _ & Hend & Hlater).
  destruct H2 as (_ & _ & _ & _ & Hend' & _).
  rewrite Hr in Hend. rewrite Hr', Hn' in Hend'.
  split_and!; [done|exact (proj1 Hend)|exact (proj2 Hend)|done|done|].
  apply Hlater. rewrite Hn'. simpl. lia.
Defined.

(** C10, the functor of the caller.  The overload for one functor reads the
    functor it is given to copy it, and that is all: however the call ends,
    no invocation in its trace is on that functor, and the functor has the
    value it had before the call. *)
Theorem original_functor_untouched {Item Src F : Type}
  `{!Iterator Item Src} `{!Functor Item F} `{!Inhabited Item}
  (d : ICommandDispatcher) (functor : nat) (G : nat) (w : @World Src F) (f : F)
  (o : @Outcome Item Src F) :
  functors w !! functor = Some f →
  iterate_functor d functor G w = Some o →
  functors (outcome_world o) !! functor = Some f ∧
  Forall (λ e, event_functor e ≠ Some functor) (outcome_trace o).
Proof.
  intros Hf. unfold iterate_functor. rewrite Hf. simpl.
  destruct (new_functors (getExecutionUnitsNumber d) f (functors w)) as [fcts h] eqn:Hnew.
  destruct (new_functors_spec _ _ _ _ _ Hnew) as (Hlen & Hnd & Hin & Hout).
  assert (Hnot : functor ∉ fcts).
  { intros [Hnone _]%Hin. congruence. }
  destruct (iterate_trace_functors d fcts G (with_functors w h)) as (_ & _ & Hcalls).
  assert (Hcalls' : Forall (λ e : @Event Item, event_functor e ≠ Some functor)
                      (outcome_trace (iterate d fcts G (with_functors w h)))).
  { eapply Forall_impl; [exact Hcalls|]. intros e He Heq. by apply Hnot, He. }
  assert (Hnews : ∀ l, Forall (λ e : @Event Item, event_functor e ≠ Some functor)
                         (EvNewFunctor <$> l)).
  { intros l. by apply Forall_fmap, Forall_true. }
  assert (Hdels : ∀ l, Forall (λ e : @Event Item, event_functor e ≠ Some functor)
                         (EvDeleteFunctor <$> l)).
  { intros l. by apply Forall_fmap, Forall_true. }
  pose proof (iterate_functors d fcts G (with_functors w h)) as Hfun.
  destruct (iterate_state_world (schedule d) fcts G (with_functors w h)) as (_ & Hkeep & _).
  specialize (Hkeep functor Hnot). simpl in Hkeep. rewrite Hout, Hf in Hkeep by done.
  intros [= <-].
  destruct (iterate d fcts G (with_functors w h)) as [w1 tr1|w1 tr1|w1 tr1]; simpl in *.
  - split.
    + rewrite delete_functors_lookup, decide_False by done. by rewrite Hfun.
    + by rewrite !Forall_app.
  - split; [by rewrite Hfun|by rewrite Forall_app].
  - split; [by rewrite Hfun|by rewrite Forall_app].
Qed.

Lemma original_functor_untouched_witness :
  let w := {| source := {| content := [10; 20; 30]; cursor := 2 |};
              synchros := ∅; synchro_next := 0;
              functors := {[ 7 := 100 ]} |} in
  let o := default (Unfinished w []) (iterate_functor (round_robin_dispatcher 2 2 12) 7 2 w) in
  functors (outcome_world o) !! 7 = Some 100 ∧
  Forall (λ e, event_functor e ≠ Some 7) (outcome_trace o).
Proof.
  intros w o.
  apply (original_functor_untouched (round_robin_dispatcher 2 2 12) 7 2 w 100 o).
  - reflexivity.
  - vm_compute. reflexivity.
Defined.

(** * Further properties of the code *)

Section MoreProtocol.

Context {Item Src F : Type}.
Context `{!Iterator Item Src} `{!Functor Item F} `{!Inhabited Item}.

Implicit Types (st : @DispatchState Item Src F) (w : @World Src F)
  (fr : @Frame Item) (tr : list (@Event Item)) (c : IteratorCommand).

Lemma iterate_state_dom sched fcts G w :
  dom (functors (world (iterate_state sched fcts G w))) = dom (functors w).
Proof.
  unfold iterate_state.
  apply (run_schedule_invariant (λ st, dom (functors (world st)) = dom (functors w)));
    [|done].
  intros st i Hdom.
  destruct (schedule_one_cases (commands fcts (synchro_next w) G) st i)
    as [->|(c & fr & fr' & w' & evs & Hc & Hi & Hstep & ->)]; [done|].
  inversion Hstep; subst; simpl in *; try done.
  rewrite dom_insert_lookup_L; [done|]. eauto.
Qed.

Lemma apply_calls_snoc (f : F) (xs : list Item) x :
  apply_calls f (xs ++ [x]) = apply_calls f xs ≫= λ g, call g x.
Proof. unfold apply_calls. by rewrite foldl_app. Qed.

Lemma command_calls_app i tr1 tr2 :
  command_calls i (tr1 ++ tr2) = command_calls i tr1 ++ command_calls i tr2.
Proof. apply omap_app. Qed.

(** The functor of a command whose address no other command has is in the
    state its own invocations have put it in. *)
Lemma functor_state_iterate_state sched fcts G w i a (f : F) :
  NoDup fcts → fcts !! i = Some a → functors w !! a = Some f →
  functors (world (iterate_state sched fcts G w)) !! a
  = apply_calls f (command_calls i (trace (iterate_state sched fcts G w))).
Proof.
  intros Hnd Ha Hf. unfold iterate_state.
  apply (run_schedule_invariant (λ st,
    functors (world st) !! a = apply_calls f (command_calls i (trace st)))); [|done].
  intros st k Hinv.
  destruct (schedule_one_cases (commands fcts (synchro_next w) G) st k)
    as [->|(c & fr & fr' & w' & evs & Hc & Hk & Hstep & ->)]; [done|].
  apply commands_lookup in Hc as (b & Hb & ->). simpl.
  rewrite command_calls_app.
  inversion Hstep; subst; simpl in *; rewrite ?app_nil_r; try done.
  destruct (decide (k = i)) as [->|Hne].
  - simplify_eq.
    rewrite apply_calls_snoc, <-Hinv, lookup_insert_eq.
    match goal with H : functors _ !! a = Some _ |- _ => rewrite H end. done.
  - rewrite app_nil_r, lookup_insert_ne; [done|].
    intros ->. apply Hne. by eapply NoDup_lookup.
Qed.

End MoreProtocol.

(** X1, exclusive access to the iterator.  In every state a dispatch can
    reach, two commands that are between [lock] and [unlock] are the same
    command, and a command about to call [get] holds the synchronizer. *)
Theorem exclusive_access {Item Src F : Type}
  `{!Iterator Item Src} `{!Functor Item F} `{!Inhabited Item}
  (sched : list nat) (fcts : list nat) (G : nat) (w : @World Src F) (i j : nat)
  (fri frj : @Frame Item) :
  frames (iterate_state sched fcts G w) !! i = Some fri →
  frames (iterate_state sched fcts G w) !! j = Some frj →
  at_point fri = AtGet ∨ at_point fri = AtUnlock →
  at_point frj = AtGet ∨ at_point frj = AtUnlock →
  i = j ∧
  synchros (world (iterate_state sched fcts G w)) !! synchro_next w = Some (Held i).
Proof.
  intros Hi Hj Hpi Hpj.
  destruct (lock_inv_iterate_state sched fcts G w) as [_ Hhold].
  assert (Hhi : synchros (world (iterate_state sched fcts G w)) !! synchro_next w
                = Some (Held i)).
  { apply (Hhold i fri Hi). by destruct Hpi as [-> | ->]. }
  assert (Hhj : synchros (world (iterate_state sched fcts G w)) !! synchro_next w
                = Some (Held j)).
  { apply (Hhold j frj Hj). by destruct Hpj as [-> | ->]. }
  split; [congruence|done].
Qed.

Lemma exclusive_access_witness :
  let w := {| source := {| content := [10; 20; 30]; cursor := 0 |};
              synchros := ∅; synchro_next := 0;
              functors := {[ 0 := 0; 1 := 0 ]} |} in
  1 = 1 ∧ synchros (world (iterate_state [1; 0; 1] [0; 1] 2 w)) !! 0 = Some (Held 1).
Proof.
  intros w.
  apply (exclusive_access [1; 0; 1] [0; 1] 2 w 1 1
           {| at_point := AtUnlock; items := [10; 20]; isRunning := true |}
           {| at_point := AtUnlock; items := [10; 20]; isRunning := true |}).
  - vm_compute. reflexivity.
  - vm_compute. reflexivity.
  - right. reflexivity.
  - right. reflexivity.
Defined.

(** X2, the synchronizer is free when it is deleted.  When [iterate]
    returns, no command held the synchronizer at the end of the dispatch:
    [delete synchro] is applied to a free synchronizer. *)
Theorem synchronizer_free_at_deletion {Item Src F : Type}
  `{!Iterator Item Src} `{!Functor Item F} `{!Inhabited Item}
  (d : ICommandDispatcher) (fcts : list nat) (G : nat) (w w' : @World Src F)
  (tr : list (@Event Item)) :
  iterate d fcts G w = Returned w' tr →
  synchros (world (iterate_state (schedule d) fcts G w)) !! synchro_next w = Some Free ∧
  w' = delete_synchro (synchro_next w) (world (iterate_state (schedule d) fcts G w)).
Proof.
  intros (Hdone & -> & _)%iterate_Returned. split; [|done].
  destruct (lock_inv_iterate_state (schedule d) fcts G w)
    as [[Hfree|(k & Hk & Hlt)] Hhold]; [done|].
  destruct (lookup_lt_is_Some_2 _ _ Hlt) as [fr Hfr].
  apply (Hhold k fr Hfr) in Hk.
  rewrite Forall_lookup in Hdone. by rewrite (Hdone k fr Hfr) in Hk.
Qed.

Lemma synchronizer_free_at_deletion_witness :
  let w := {| source := {| content := [10; 20; 30]; cursor := 0 |};
              synchros := ∅; synchro_next := 0;
              functors := {[ 0 := 0; 1 := 0 ]} |} in
  let d := round_robin_dispatcher 2 2 12 in
  synchros (world (iterate_state (schedule d) [0; 1] 2 w)) !! 0 = Some Free.
Proof.
  intros w d.
  refine (proj1 (synchronizer_free_at_deletion d [0; 1] 2 w
    (outcome_world (iterate d [0; 1] 2 w)) (outcome_trace (iterate d [0; 1] 2 w)) _)).
  vm_compute. reflexivity.
Defined.

(** X3, what [iterate] leaves alone.  However the call ends, the functors
    that are not in the vector have the values they had, no functor has been
    created or deleted, and the synchronizers other than the one of the call
    are as they were. *)
Theorem iterate_frame {Item Src F : Type}
  `{!Iterator Item Src} `{!Functor Item F} `{!Inhabited Item}
  (d : ICommandDispatcher) (fcts : list nat) (G : nat) (w : @World Src F) :
  (∀ a, a ∉ fcts →
     functors (outcome_world (iterate d fcts G w)) !! a = functors w !! a) ∧
  dom (functors (outcome_world (iterate d fcts G w))) = dom (functors w) ∧
  (∀ s, s ≠ synchro_next w →
     synchros (outcome_world (iterate d fcts G w)) !! s = synchros w !! s).
Proof.
  destruct (iterate_state_world (schedule d) fcts G w) as (_ & Hfct & Hsyn).
  pose proof (iterate_state_dom (schedule d) fcts G w) as Hdom.
  rewrite iterate_unfold. simpl.
  destruct (forallb finished _); [|destruct (forallb terminated _)]; simpl;
    split_and!; try done.
  intros s Hs. rewrite lookup_delete_ne by done. by apply Hsyn.
Qed.

(** X4, a functor sees the items of its own command, in order.  When the
    addresses of the vector differ from one another, the functor of a
    command is at any time in the state that its successive invocations, on
    the items that command has passed to it and in that order, have put it
    in: the invocations of the other commands do not reach it. *)
Theorem functor_private_state {Item Src F : Type}
  `{!Iterator Item Src} `{!Functor Item F} `{!Inhabited Item}
  (d : ICommandDispatcher) (fcts : list nat) (G : nat) (w : @World Src F)
  (i a : nat) (f : F) :
  NoDup fcts → fcts !! i = Some a → functors w !! a = Some f →
  functors (outcome_world (iterate d fcts G w)) !! a
  = apply_calls f (command_calls i (outcome_trace (iterate d fcts G w))).
Proof.
  intros Hnd Ha Hf.
  pose proof (functor_state_iterate_state (schedule d) fcts G w i a f Hnd Ha Hf) as Hst.
  rewrite iterate_unfold. simpl.
  destruct (forallb finished _); [|by destruct (forallb terminated _)].
  simpl. rewrite command_calls_app. simpl. by rewrite app_nil_r.
Qed.

Lemma functor_private_state_witness :
  let w := {| source := {| content := [10; 20; 30; 40; 50]; cursor := 0 |};
              synchros := ∅; synchro_next := 0;
              functors := {[ 0 := 0; 1 := 0 ]} |} in
  let o := iterate (round_robin_dispatcher 2 2 20) [0; 1] 2 w in
  functors (outcome_world o) !! 1 = apply_calls 0 (command_calls 1 (outcome_trace o)).
Proof.
  intros w o.
  apply (functor_private_state (round_robin_dispatcher 2 2 20) [0; 1] 2 w 1 1 0).
  - apply NoDup_cons. split; [|apply NoDup_singleton].
    intros Hin. apply elem_of_cons in Hin as [Hin|Hin]; [done|].
    by apply elem_of_nil in Hin.
  - reflexivity.
  - reflexivity.
Defined.

Section MoreSequential.

Context {Item F : Type}.
Context `{!Functor Item F} `{!Inhabited Item}.

Implicit Types (st : @DispatchState Item (SequentialSource Item) F)
  (w : @World (SequentialSource Item) F) (fr : @Frame Item) (l : list Item).

Lemma fetched_batches_app (tr1 tr2 : list (@Event Item)) :
  fetched_batches (tr1 ++ tr2) = fetched_batches tr1 ++ fetched_batches tr2.
Proof. apply omap_app. Qed.

Lemma slices_inv_iterate_state sched fcts G w :
  slices_inv (content (source w)) G (iterate_state sched fcts G w).
Proof.
  unfold iterate_state. apply run_schedule_invariant.
  - intros st i (Hl & Hcat & Hlen & Hfrs).
    destruct (schedule_one_cases (commands fcts (synchro_next w) G) st i)
      as [->|(c & fr & fr' & w' & evs & Hc & Hi & Hstep & ->)]; [done|].
    assert (Hfr : length (items fr) ≤ G) by (rewrite Forall_lookup in Hfrs; eauto).
    unfold slices_inv. simpl. rewrite fetched_batches_app.
    inversion Hstep; subst; simpl in *; rewrite ?app_nil_r;
      try (split_and!; [done|done|done|by apply Forall_insert]).
    match goal with H : GetOk _ _ _ = GetOk _ _ _ |- _ => injection H as <- <- <- end.
    simpl.
    assert (Hb : length (take (length its)
                   (drop (cursor (source (world st))) (content (source (world st))))) ≤ G).
    { rewrite length_take. lia. }
    split_and!; [done| | |by apply Forall_insert].
    + rewrite Hl, concat_app, Hcat, take_advance. simpl. by rewrite app_nil_r.
    + apply Forall_app. split; [done|]. by repeat constructor.
  - unfold slices_inv. simpl. split_and!; [done|done|constructor|].
    unfold commands. rewrite <-list_fmap_compose.
    apply Forall_fmap, Forall_forall. intros a _. simpl. by rewrite length_replicate.
Qed.

(** When [iterate] returns with one command at least, the cursor is at the
    end of the source. *)
Lemma cursor_at_end d fcts G w w' tr :
  fcts ≠ [] → iterate d fcts G w = Returned w' tr →
  cursor (source (world (iterate_state (schedule d) fcts G w)))
  = length (content (source w)).
Proof.
  intros Hne (Hdone & _ & _)%iterate_Returned.
  destruct (partition_inv_iterate_state (schedule d) fcts G w)
    as (_ & _ & Hrun & Hend & _).
  pose proof (iterate_state_length (schedule d) fcts G w) as Hlen.
  destruct (frames (iterate_state (schedule d) fcts G w)) as [|fr frs] eqn:Hfrs.
  - by destruct fcts.
  - apply (Hend 0 fr); [done|]. apply (Hrun 0 fr); [done|]. by inversion Hdone.
Qed.

Section Bounded.

Hypothesis call_total : ∀ (f : F) (x : Item), is_Some (call f x).

Lemma trace_bound_iterate_state sched fcts G w :
  1 ≤ G → (∀ a, a ∈ fcts → is_Some (functors w !! a)) →
  length (trace (iterate_state sched fcts G w))
  + measure G (iterate_state sched fcts G w)
  ≤ 3 + (length fcts + length (content (source w))) * (G + 4).
Proof.
  intros HG Hfct.
  cut (live_inv fcts (synchro_next w) G (iterate_state sched fcts G w) ∧
       length (trace (iterate_state sched fcts G w))
       + measure G (iterate_state sched fcts G w)
       ≤ 3 + (length fcts + length (content (source w))) * (G + 4)); [by intros []|].
  pose proof (live_inv_iterate_state call_total [] fcts G w Hfct) as Hlive.
  unfold iterate_state in *. simpl in Hlive.
  apply run_schedule_invariant.
  - intros st i [Hl Hb]. split; [by apply live_inv_step|].
    destruct (schedule_one_cases (commands fcts (synchro_next w) G) st i)
      as [->|(c & fr & fr' & w' & evs & Hc & Hi & Hstep & Heq)]; [done|].
    pose proof (measure_step _ _ _ _ _ _ _ _ _ _ HG Hl Hc Hi Hstep) as Hlt.
    rewrite Heq. simpl in *. rewrite length_app.
    assert (length evs ≤ 1) by (inversion Hstep; simpl; lia). lia.
  - split; [done|]. rewrite measure_start by done. simpl. lia.
Qed.

End Bounded.

End MoreSequential.

(** X5, the batches are consecutive slices of the source.  Over a
    sequential source, the batches fetched by all the commands, taken in the
    order of the fetches, are at any time the items before the cursor, and
    none has more than [groupSize] items; when [iterate] returns with one
    command at least, they are the whole source. *)
Theorem batches_in_fetch_order {Item F : Type} `{!Functor Item F} `{!Inhabited Item}
  (d : ICommandDispatcher) (fcts : list nat) (G : nat)
  (w : @World (SequentialSource Item) F) :
  (∀ sched,
     concat (fetched_batches (trace (iterate_state sched fcts G w)))
     = take (cursor (source (world (iterate_state sched fcts G w)))) (content (source w)) ∧
     Forall (λ b, length b ≤ G) (fetched_batches (trace (iterate_state sched fcts G w)))) ∧
  (∀ w' tr, fcts ≠ [] → iterate d fcts G w = Returned w' tr →
     concat (fetched_batches tr) = content (source w)).
Proof.
  split.
  - intros sched.
    by destruct (slices_inv_iterate_state sched fcts G w) as (_ & Hcat & Hlen & _).
  - intros w' tr Hne Hret.
    pose proof (cursor_at_end d fcts G w w' tr Hne Hret) as Hcur.
    destruct (slices_inv_iterate_state (schedule d) fcts G w) as (_ & Hcat & _).
    apply iterate_Returned in Hret as (_ & _ & ->).
    rewrite fetched_batches_app. simpl.
    by rewrite app_nil_r, Hcat, Hcur, take_ge.
Qed.

(** X6, no schedule makes the commands run on.  Over a sequential source,
    with a group size of at least one and functors that are alive and do
    not raise, the commands make at most [(W + N) * (groupSize + 4)] moves
    for [W] commands and [N] items, however they are scheduled: the trace
    is never longer than that (and the three events [iterate] starts
    with). *)
Theorem dispatch_is_bounded {Item F : Type} `{!Functor Item F} `{!Inhabited Item}
  (sched : list nat) (fcts : list nat) (G : nat)
  (w : @World (SequentialSource Item) F) :
  1 ≤ G →
  (∀ (f : F) (x : Item), is_Some (call f x)) →
  (∀ a, a ∈ fcts → is_Some (functors w !! a)) →
  length (trace (iterate_state sched fcts G w))
  ≤ 3 + (length fcts + length (content (source w))) * (G + 4).
Proof.
  intros HG Htotal Hfct.
  pose proof (trace_bound_iterate_state Htotal sched fcts G w HG Hfct). lia.
Qed.

Lemma dispatch_is_bounded_witness :
  let w := {| source := {| content := [10; 20; 30; 40; 50]; cursor := 3 |};
              synchros := ∅; synchro_next := 0;
              functors := {[ 0 := 0; 1 := 0 ]} |} in
  length (trace (iterate_state [0; 1; 1; 0; 0; 1] [0; 1] 2 w)) ≤ 3 + (2 + 5) * (2 + 4).
Proof.
  intros w. apply (dispatch_is_bounded [0; 1; 1; 0; 0; 1] [0; 1] 2 w).
  - lia.
  - intros f x. by eexists.
  - intros a Ha.
    repeat (apply elem_of_cons in Ha as [->|Ha]; [by eexists|]).
    by apply elem_of_nil in Ha.
Defined.

(** X7, a group size of zero over a source that has items.  The vector of
    every command is then empty, no fetch takes an item and the source is
    never exhausted: whatever the backend, [iterate] does not return. *)
Theorem zero_group_size_never_returns {Item F : Type} `{!Functor Item F} `{!Inhabited Item}
  (d : ICommandDispatcher) (fcts : list nat)
  (w w' : @World (SequentialSource Item) F) (tr : list (@Event Item)) :
  fcts ≠ [] → content (source w) ≠ [] →
  iterate d fcts 0 w ≠ Returned w' tr.
Proof.
  intros Hne Hcontent Hret.
  pose proof (partition_safety d fcts 0 w w' tr Hne Hret) as Hperm.
  destruct (no_items_iterate_state (schedule d) fcts 0 w (or_intror eq_refl)) as [_ Hnone].
  apply iterate_Returned in Hret as (_ & _ & ->).
  rewrite called_items_app, Hnone in Hperm. simpl in Hperm.
  apply Permutation_nil_l in Hperm. by apply Hcontent.
Qed.

Lemma zero_group_size_never_returns_witness :
  let w := {| source := {| content := [10; 20]; cursor := 0 |};
              synchros := ∅; synchro_next := 0;
              functors := {[ 0 := 0 ]} |} in
  length (content (source w)) = 2 ∧
  iterate (round_robin_dispatcher 1 1 50) [0] 0 w ≠ Returned w [].
Proof.
  intros w. split; [reflexivity|].
  apply (zero_group_size_never_returns (round_robin_dispatcher 1 1 50) [0] w w []); done.
Defined.

(** X8, a dispatcher without execution unit.  The overload for one functor
    then makes no copy and dispatches no command: it returns with the source
    reset and none of its items passed to a functor, the functors being as
    they were. *)
Theorem no_execution_unit {Item Src F : Type}
  `{!Iterator Item Src} `{!Functor Item F} `{!Inhabited Item}
  (d : ICommandDispatcher) (functor : nat) (G : nat) (w : @World Src F) (f : F) :
  getExecutionUnitsNumber d = 0 →
  functors w !! functor = Some f →
  iterate_functor d functor G w
  = Some (Returned
            {| source := reset (source w);
               synchros := delete (synchro_next w) (<[synchro_next w := Free]> (synchros w));
               synchro_next := S (synchro_next w);
               functors := functors w |}
            [EvNewSynchro (synchro_next w); EvReset; EvDispatch 0;
             EvDeleteSynchro (synchro_next w)]).
Proof.
  intros Hunits Hf. unfold iterate_functor. rewrite Hf, Hunits. simpl.
  rewrite iterate_unfold. unfold iterate_state.
  change (commands [] (synchro_next (with_functors w (functors w))) G)
    with (@nil IteratorCommand).
  by rewrite run_schedule_nil.
Qed.

Lemma no_execution_unit_witness :
  let w := {| source := {| content := [10; 20]; cursor := 1 |};
              synchros := ∅; synchro_next := 0;
              functors := {[ 5 := 0 ]} |} in
  iterate_functor {| getExecutionUnitsNumber := 0; schedule := [0; 1; 0] |} 5 1000 w
  = Some (Returned
            {| source := {| content := [10; 20]; cursor := 0 |};
               synchros := delete 0 (<[0 := Free]> ∅);
               synchro_next := 1;
               functors := {[ 5 := 0 ]} |}
            [EvNewSynchro 0; EvReset; EvDispatch 0; EvDeleteSynchro 0]).
Proof.
  intros w.
  exact (no_execution_unit {| getExecutionUnitsNumber := 0; schedule := [0; 1; 0] |}
           5 1000 w 0 eq_refl eq_refl).
Defined.

Section Counting.

Context {Item Src F : Type}.
Context `{!Iterator Item Src} `{!Functor Item F} `{!Inhabited Item}.

Implicit Types (st : @DispatchState Item Src F) (w : @World Src F)
  (fr : @Frame Item) (tr : list (@Event Item)) (c : IteratorCommand).

(** Every event of a command in the trace of a dispatch is the event of a
    command of the vector. *)
Lemma iterate_state_commands sched fcts G w :
  Forall (λ e, ∀ i, event_command e = Some i → i < length fcts)
    (trace (iterate_state sched fcts G w)).
Proof.
  unfold iterate_state. apply run_schedule_invariant.
  - intros st i Hinv.
    destruct (schedule_one_cases (commands fcts (synchro_next w) G) st i)
      as [->|(c & fr & fr' & w' & evs & Hc & Hi & Hstep & ->)]; [done|].
    simpl. apply Forall_app. split; [done|].
    apply lookup_lt_Some in Hc. unfold commands in Hc. rewrite length_fmap in Hc.
    eapply Forall_impl; [exact (Step_events _ _ _ _ _ _ _ Hstep)|].
    intros e He k Hk. congruence.
  - simpl. by repeat constructor.
Qed.

(** A raise recorded in the trace has terminated its command. *)
Lemma iterate_state_raises sched fcts G w :
  Forall (λ e, match e with
               | EvCallRaise i _ _ | EvGetRaise i =>
                   ∃ fr, frames (iterate_state sched fcts G w) !! i = Some fr ∧
                         raised fr = true
               | _ => True
               end)
    (trace (iterate_state sched fcts G w)).
Proof.
  unfold iterate_state.
  apply (run_schedule_invariant (λ st,
    Forall (λ e, match e with
                 | EvCallRaise i _ _ | EvGetRaise i =>
                     ∃ fr, frames st !! i = Some fr ∧ raised fr = true
                 | _ => True
                 end) (trace st))).
  - intros st k Hinv.
    destruct (schedule_one_cases (commands fcts (synchro_next w) G) st k)
      as [->|(c & fr & fr' & w' & evs & Hc & Hk & Hstep & ->)]; [done|].
    simpl. apply Forall_app. split.
    + eapply Forall_impl; [exact Hinv|]. intros e He.
      assert (Hkeep : ∀ i, (∃ fri, frames st !! i = Some fri ∧ raised fri = true) →
                ∃ fri, <[k := fr']> (frames st) !! i = Some fri ∧ raised fri = true).
      { intros i (fri & Hi & Hr). exists fri. split; [|done].
        destruct (decide (k = i)) as [->|Hne]; [|by rewrite list_lookup_insert_ne].
        simplify_eq. inversion Hstep; subst; done. }
      destruct e; try done; by apply Hkeep.
    + pose proof (lookup_lt_Some _ _ _ Hk) as Hlt.
      inversion Hstep; subst; repeat constructor;
        rewrite list_lookup_insert_eq by done; by eexists.
  - simpl. by repeat constructor.
Qed.

Lemma concat_insert_absent (g : nat → list Item) (ids : list nat) k x :
  k ∉ ids →
  (λ i, (if decide (k = i) then [x] else []) ++ g i) <$> ids = g <$> ids.
Proof.
  intros Hk. apply list_fmap_ext. intros j i Hi.
  rewrite decide_False; [done|]. intros ->. by apply Hk, list_elem_of_lookup_2 with j.
Qed.

Lemma concat_insert_one (g : nat → list Item) (ids : list nat) k x :
  NoDup ids → k ∈ ids →
  concat ((λ i, (if decide (k = i) then [x] else []) ++ g i) <$> ids)
  ≡ₚ x :: concat (g <$> ids).
Proof.
  induction 1 as [|i ids Hi Hnd IH]; intros Hk; [by apply elem_of_nil in Hk|].
  rewrite !fmap_cons. simpl. destruct (decide (k = i)) as [->|Hne].
  - by rewrite concat_insert_absent.
  - apply elem_of_cons in Hk as [Hk|Hk]; [done|].
    rewrite IH by done. simpl. by rewrite Permutation_middle.
Qed.

(** The items passed to the functors are those passed by each command to
    its own, when no invocation has raised. *)
Lemma called_items_by_command tr (ids : list nat) :
  NoDup ids →
  Forall (λ e, match e with
               | EvCallRaise _ _ _ => False
               | EvCall i _ _ => i ∈ ids
               | _ => True
               end) tr →
  called_items tr ≡ₚ concat ((λ i, command_calls i tr) <$> ids).
Proof.
  intros Hnd. induction 1 as [|e tr He _ IH].
  - replace (concat _) with (@nil Item); [done|].
    clear Hnd. induction ids as [|i ids IHids]; [done|exact IHids].
  - destruct e as [| | | | | | | |k a x| | |]; try done; try exact IH.
    change (called_items (EvCall k a x :: tr)) with (x :: called_items tr).
    rewrite IH, <-(concat_insert_one (λ i, command_calls i tr) ids k x Hnd He).
    replace ((λ i, command_calls i (EvCall k a x :: tr)) <$> ids)
      with ((λ i, (if decide (k = i) then [x] else []) ++ command_calls i tr) <$> ids);
      [done|].
    apply list_fmap_ext. intros _ i _. unfold command_calls. simpl.
    by destruct (decide (k = i)).
Qed.

(** Events counted in the whole trace and command by command. *)
Lemma count_command_events_cons (p : @Event Item → bool) i e tr :
  length (filter (λ e, p e = true) (command_events i (e :: tr)))
  = (if decide (p e = true ∧ event_command e = Some i) then 1 else 0)
    + length (filter (λ e, p e = true) (command_events i tr)).
Proof.
  unfold command_events.
  destruct (decide (event_command e = Some i)) as [Hi|Hi].
  - rewrite filter_cons_True by done.
    destruct (decide (p e = true)) as [Hp|Hp].
    + rewrite filter_cons_True, decide_True by done. done.
    + rewrite filter_cons_False, decide_False by tauto. done.
  - rewrite filter_cons_False, decide_False by tauto. done.
Qed.

Lemma sum_insert_one (g : nat → nat) (ids : list nat) (P : nat → Prop)
  `{!∀ i, Decision (P i)} k :
  NoDup ids → (∀ i, P i ↔ i = k) → k ∈ ids →
  sum_list ((λ i, (if decide (P i) then 1 else 0) + g i) <$> ids)
  = S (sum_list (g <$> ids)).
Proof.
  intros Hnd HP. induction Hnd as [|i ids Hi Hnd IH]; intros Hk;
    [by apply elem_of_nil in Hk|].
  rewrite !fmap_cons. simpl. destruct (decide (P i)) as [Hp|Hp].
  - apply HP in Hp as ->.
    replace ((λ i, (if decide (P i) then 1 else 0) + g i) <$> ids) with (g <$> ids);
      [lia|].
    apply list_fmap_ext. intros j i Hj. rewrite decide_False; [done|].
    intros ->%HP. by apply Hi, list_elem_of_lookup_2 with j.
  - apply elem_of_cons in Hk as [->|Hk]; [by destruct Hp; apply HP|].
    rewrite IH by done. lia.
Qed.

Lemma count_by_command (p : @Event Item → bool) tr (ids : list nat) :
  NoDup ids →
  Forall (λ e, p e = true → ∃ i, event_command e = Some i ∧ i ∈ ids) tr →
  length (filter (λ e, p e = true) tr)
  = sum_list ((λ i, length (filter (λ e, p e = true) (command_events i tr))) <$> ids).
Proof.
  intros Hnd. induction 1 as [|e tr He _ IH].
  - replace (sum_list _) with 0; [done|].
    clear Hnd. induction ids as [|i ids IHids]; [done|exact IHids].
  - replace ((λ i, length (filter (λ e, p e = true) (command_events i (e :: tr)))) <$> ids)
      with ((λ i, (if decide (p e = true ∧ event_command e = Some i) then 1 else 0)
                  + length (filter (λ e, p e = true) (command_events i tr))) <$> ids).
    2:{ apply list_fmap_ext. intros _ i _. by rewrite count_command_events_cons. }
    destruct (decide (p e = true)) as [Hp|Hp].
    + rewrite filter_cons_True by done. simpl.
      destruct (He Hp) as (k & Hk & Hin).
      rewrite (sum_insert_one _ ids (λ i, p e = true ∧ event_command e = Some i) k);
        [by rewrite IH|done| |done].
      intros i. split; [intros [_ Hi]; congruence|by intros ->].
    + rewrite filter_cons_False by done. rewrite IH.
      f_equal. apply list_fmap_ext. intros _ i _. rewrite decide_False; [done|tauto].
Qed.

Lemma lock_count_app tr1 tr2 : lock_count (tr1 ++ tr2) = lock_count tr1 + lock_count tr2.
Proof. unfold lock_count. by rewrite filter_app, length_app. Qed.

Lemma lock_count_turn c i (b : list Item) more : lock_count (turn c i b more) = 1.
Proof.
  unfold turn. rewrite lock_count_app.
  replace (lock_count (EvCall i (_fct c) <$> b)) with 0; [done|].
  unfold lock_count. induction b as [|x b IH]; [done|].
  rewrite fmap_cons, filter_cons_False; done.
Qed.

Lemma lock_count_turns c i (batches : list (list Item)) :
  Forall (λ b, b ≠ []) batches →
  lock_count (batches ≫= λ b, turn c i b true)
  ≤ nonempty_fetches (batches ≫= λ b, turn c i b true).
Proof.
  induction 1 as [|b batches Hb _ IH]; [done|].
  rewrite bind_cons, lock_count_app, nonempty_fetches_app, lock_count_turn.
  pose proof (nonempty_fetches_turn c i b true Hb). lia.
Qed.

Lemma sum_list_le_plus_one (f g : nat → nat) (ids : list nat) :
  (∀ i, i ∈ ids → f i ≤ g i + 1) →
  sum_list (f <$> ids) ≤ sum_list (g <$> ids) + length ids.
Proof.
  induction ids as [|i ids IH]; intros Hfg; [done|].
  rewrite !fmap_cons. simpl.
  pose proof (Hfg i (list_elem_of_here _ _)).
  assert (sum_list (f <$> ids) ≤ sum_list (g <$> ids) + length ids).
  { apply IH. intros j Hj. by apply Hfg, list_elem_of_further. }
  lia.
Qed.

End Counting.

Lemma command_calls_partition {Item F : Type} `{!Functor Item F} `{!Inhabited Item}
  (d : ICommandDispatcher) (fcts : list nat) (G : nat)
  (w w' : @World (SequentialSource Item) F) (tr : list (@Event Item)) :
  fcts ≠ [] → iterate d fcts G w = Returned w' tr →
  concat ((λ i, command_calls i tr) <$> seq 0 (length fcts)) ≡ₚ content (source w).
Proof.
  intros Hne Hret.
  rewrite <-(partition_safety d fcts G w w' tr Hne Hret).
  symmetry. apply called_items_by_command; [apply NoDup_seq|].
  apply iterate_Returned in Hret as (Hdone & _ & ->).
  pose proof (iterate_state_commands (schedule d) fcts G w) as Hcmd.
  pose proof (iterate_state_raises (schedule d) fcts G w) as Hraise.
  apply Forall_app. split; [|by repeat constructor].
  rewrite Forall_forall in Hcmd, Hraise. apply Forall_forall. intros e He.
  specialize (Hcmd e He). specialize (Hraise e He).
  destruct e as [| | | | | | | |k a x|k a x| |]; try done.
  - apply elem_of_seq. split; [lia|]. simpl. by apply Hcmd.
  - destruct Hraise as (fr & Hfr & Hr).
    rewrite Forall_lookup in Hdone. specialize (Hdone k fr Hfr).
    unfold raised in Hr. by rewrite Hdone in Hr.
Qed.


(** X9, the commands share out the source.  Over a sequential source, when
    [iterate] returns with one command at least, the lists of the items each
    command has passed to its own functor are together, as a multiset, the
    sequence of the source: every item has gone to one command, once. *)
Theorem items_shared_out {Item F : Type} `{!Functor Item F} `{!Inhabited Item}
  (d : ICommandDispatcher) (fcts : list nat) (G : nat)
  (w w' : @World (SequentialSource Item) F) (tr : list (@Event Item)) :
  fcts ≠ [] → iterate d fcts G w = Returned w' tr →
  concat ((λ i, command_calls i tr) <$> seq 0 (length fcts)) ≡ₚ content (source w).
Proof. apply command_calls_partition. Qed.

Lemma items_shared_out_witness :
  let w := {| source := {| content := [10; 20; 30; 40; 50]; cursor := 0 |};
              synchros := ∅; synchro_next := 0;
              functors := {[ 0 := 0; 1 := 0 ]} |} in
  let o := iterate (round_robin_dispatcher 2 2 20) [0; 1] 2 w in
  concat ((λ i, command_calls i (outcome_trace o)) <$> seq 0 2) ≡ₚ [10; 20; 30; 40; 50].
Proof.
  intros w o.
  apply (items_shared_out (round_robin_dispatcher 2 2 20) [0; 1] 2 w
           (outcome_world o) (outcome_trace o)).
  - done.
  - vm_compute. reflexivity.
Defined.

Lemma apply_calls_sum (f : nat) (xs : list nat) :
  apply_calls f xs = Some (f + sum_list xs).
Proof.
  induction xs as [|x xs IH] using rev_ind.
  - unfold apply_calls. simpl. f_equal. lia.
  - rewrite apply_calls_snoc, IH. simpl. rewrite sum_list_with_app. simpl.
    f_equal. lia.
Qed.

Lemma sums_by_command (fcts : list nat) (h h' : gmap nat nat) (calls : nat → list nat) :
  (∀ i a, fcts !! i = Some a →
     ∃ f, h !! a = Some f ∧ h' !! a = Some (f + sum_list (calls i))) →
  ∀ k l,
    (∀ j a, l !! j = Some a → fcts !! (k + j) = Some a) →
    sum_list (omap (λ a, h' !! a) l)
    = sum_list (omap (λ a, h !! a) l) + sum_list (concat (calls <$> seq k (length l))).
Proof.
  intros Hall k l. revert k. induction l as [|a l IH]; intros k Hl; [done|].
  destruct (Hall k a) as (f & Hf & Hf').
  { specialize (Hl 0 a eq_refl). by rewrite Nat.add_0_r in Hl. }
  assert (Hrec : sum_list (omap (λ a, h' !! a) l)
                 = sum_list (omap (λ a, h !! a) l)
                   + sum_list (concat (calls <$> seq (S k) (length l)))).
  { apply IH. intros j b Hj. specialize (Hl (S j) b Hj).
    by rewrite Nat.add_succ_r in Hl. }
  replace (omap (λ a, h' !! a) (a :: l))
    with ((f + sum_list (calls k)) :: omap (λ a, h' !! a) l) by (simpl; by rewrite Hf').
  replace (omap (λ a, h !! a) (a :: l))
    with (f :: omap (λ a, h !! a) l) by (simpl; by rewrite Hf).
  replace (concat (calls <$> seq k (length (a :: l))))
    with (calls k ++ concat (calls <$> seq (S k) (length l))) by done.
  rewrite sum_list_with_app. simpl. lia.
Qed.

(** X10, the private sums add up.  With summing functors at addresses that
    differ from one another, over a sequential source: when [iterate]
    returns, the counters of the functors have grown, together, by the sum
    of the items of the source. *)
Theorem private_sums_add_up
  (d : ICommandDispatcher) (fcts : list nat) (G : nat)
  (w w' : @World (SequentialSource nat) nat) (tr : list (@Event nat)) :
  NoDup fcts → fcts ≠ [] →
  (∀ a, a ∈ fcts → is_Some (functors w !! a)) →
  iterate d fcts G w = Returned w' tr →
  sum_list (omap (λ a, functors w' !! a) fcts)
  = sum_list (omap (λ a, functors w !! a) fcts) + sum_list (content (source w)).
Proof.
  intros Hnd Hne Hfct Hret.
  pose proof (command_calls_partition d fcts G w w' tr Hne Hret) as Hperm.
  rewrite <-(sum_list_with_Permutation_proper id _ _ Hperm).
  refine (sums_by_command fcts (functors w) (functors w') (λ i, command_calls i tr)
            _ 0 fcts _); [|done].
  intros i a Ha. destruct (Hfct a) as [f Hf]; [by eapply list_elem_of_lookup_2|].
  exists f. split; [done|].
  pose proof (functor_state_iterate_state (schedule d) fcts G w i a f Hnd Ha Hf) as Hst.
  apply iterate_Returned in Hret as (_ & -> & ->). simpl.
  rewrite command_calls_app. simpl. rewrite app_nil_r.
  by rewrite Hst, apply_calls_sum.
Qed.

Lemma private_sums_add_up_witness :
  let w := {| source := {| content := [10; 20; 30; 40; 50]; cursor := 2 |};
              synchros := ∅; synchro_next := 0;
              functors := {[ 0 := 1; 1 := 2 ]} |} in
  let o := iterate (round_robin_dispatcher 2 2 20) [0; 1] 2 w in
  sum_list (omap (λ a, functors (outcome_world o) !! a) [0; 1])
  = sum_list (omap (λ a, functors w !! a) [0; 1]) + sum_list [10; 20; 30; 40; 50].
Proof.
  intros w o.
  apply (private_sums_add_up (round_robin_dispatcher 2 2 20) [0; 1] 2 w
           (outcome_world o) (outcome_trace o)).
  - apply NoDup_cons. split; [|apply NoDup_singleton].
    intros Hin. apply elem_of_cons in Hin as [Hin|Hin]; [done|].
    by apply elem_of_nil in Hin.
  - done.
  - intros a Ha.
    repeat (apply elem_of_cons in Ha as [->|Ha]; [by eexists|]).
    by apply elem_of_nil in Ha.
  - vm_compute. reflexivity.
Defined.

(** X11, the group size bounds the traffic on the synchronizer.  Over a
    sequential source of [N] items, with a group size of at least one and
    functors that are alive and do not raise: when [iterate] returns, the
    synchronizer has been locked at most [ceil_div N groupSize] times plus
    once for each command. *)
Theorem lock_traffic_bound {Item F : Type} `{!Functor Item F} `{!Inhabited Item}
  (d : ICommandDispatcher) (fcts : list nat) (G : nat)
  (w w' : @World (SequentialSource Item) F) (tr : list (@Event Item)) :
  1 ≤ G →
  (∀ (f : F) (x : Item), is_Some (call f x)) →
  (∀ a, a ∈ fcts → is_Some (functors w !! a)) →
  iterate d fcts G w = Returned w' tr →
  lock_count tr ≤ ceil_div (length (content (source w))) G + length fcts.
Proof.
  intros HG Htotal Hfct (Hdone & _ & ->)%iterate_Returned.
  pose proof (script_inv_iterate_state (schedule d) fcts G w) as Hscr.
  pose proof (iterate_state_length (schedule d) fcts G w) as Hlen.
  pose proof (iterate_state_commands (schedule d) fcts G w) as Hcmd.
  destruct (fetch_inv_iterate_state Htotal (schedule d) fcts G w HG Hfct)
    as (_ & Hbound & Hmore).
  destruct (partition_inv_iterate_state (schedule d) fcts G w) as (_ & Hle & _).
  set (st := iterate_state (schedule d) fcts G w) in *.
  set (N := length (content (source w))) in *.
  rewrite lock_count_app. replace (lock_count [EvDeleteSynchro _]) with 0 by done.
  rewrite Nat.add_0_r.
  assert (Hf : nonempty_fetches (trace st) ≤ ceil_div N G).
  { unfold ceil_div. apply Nat.div_le_lower_bound; [lia|]. nia. }
  assert (Hin : ∀ (p : @Event Item → bool),
            (∀ e, p e = true → is_Some (event_command e)) →
            Forall (λ e, p e = true →
                         ∃ i, event_command e = Some i ∧ i ∈ seq 0 (length fcts))
              (trace st)).
  { intros p Hp. eapply Forall_impl; [exact Hcmd|]. intros e He Hpe.
    destruct (Hp e Hpe) as [i Hi]. exists i. split; [done|].
    apply elem_of_seq. split; [lia|]. simpl. by apply He. }
  assert (Hlocks : lock_count (trace st)
                   = sum_list ((λ i, lock_count (command_events i (trace st)))
                               <$> seq 0 (length fcts))).
  { apply (count_by_command is_lock); [apply NoDup_seq|]. apply Hin.
    intros e He. by destruct e. }
  assert (Hgets : nonempty_fetches (trace st)
                  = sum_list ((λ i, nonempty_fetches (command_events i (trace st)))
                              <$> seq 0 (length fcts))).
  { apply (count_by_command is_nonempty_get); [apply NoDup_seq|]. apply Hin.
    intros e He. by destruct e. }
  pose proof (sum_list_le_plus_one
    (λ i, lock_count (command_events i (trace st)))
    (λ i, nonempty_fetches (command_events i (trace st)))
    (seq 0 (length fcts))) as Hsum.
  rewrite length_seq in Hsum.
  cut (∀ i, i ∈ seq 0 (length fcts) →
         lock_count (command_events i (trace st))
         ≤ nonempty_fetches (command_events i (trace st)) + 1).
  { intros Heach. specialize (Hsum Heach). lia. }
  intros i [_ Hi]%elem_of_seq. simpl in Hi.
  destruct (lookup_lt_is_Some_2 fcts i Hi) as [a Ha].
  destruct (lookup_lt_is_Some_2 (frames st) i) as [fr Hfr]; [by rewrite Hlen|].
  destruct (Hscr i (Build_IteratorCommand a (synchro_next w) G) fr)
    as [batches Hev]; [|done|].
  { unfold commands. by rewrite list_lookup_fmap, Ha. }
  unfold turn_so_far in Hev. rewrite Forall_lookup in Hdone.
  rewrite (Hdone i fr Hfr) in Hev.
  assert (Hne : Forall (λ b, b ≠ []) batches).
  { apply Forall_forall. intros b Hb.
    assert (Hget : EvGet i b true ∈ command_events i (trace st)).
    { rewrite Hev. apply elem_of_app. left. apply list_elem_of_bind.
      exists b. split; [|done]. unfold turn. simpl.
      apply list_elem_of_further, list_elem_of_here. }
    apply list_elem_of_filter in Hget as [_ Hget].
    rewrite Forall_forall in Hmore. apply (Hmore _ Hget). }
  rewrite Hev, lock_count_app, nonempty_fetches_app, lock_count_turn.
  pose proof (lock_count_turns (Build_IteratorCommand a (synchro_next w) G) i batches Hne).
  lia.
Qed.

Lemma lock_traffic_bound_witness :
  let w := {| source := {| content := [10; 20; 30; 40; 50]; cursor := 0 |};
              synchros := ∅; synchro_next := 0;
              functors := {[ 0 := 0; 1 := 0 ]} |} in
  let o := iterate (round_robin_dispatcher 2 2 20) [0; 1] 2 w in
  lock_count (outcome_trace o) ≤ ceil_div 5 2 + 2.
Proof.
  intros w o.
  apply (lock_traffic_bound (round_robin_dispatcher 2 2 20) [0; 1] 2 w
           (outcome_world o) (outcome_trace o)).
  - lia.
  - intros f x. by eexists.
  - intros a Ha.
    repeat (apply elem_of_cons in Ha as [->|Ha]; [by eexists|]).
    by apply elem_of_nil in Ha.
  - vm_compute. reflexivity.
Defined.

Section Vector.

Context {Item Src F : Type}.
Context `{!Iterator Item Src} `{!Functor Item F} `{!Inhabited Item}.

Lemma fetches_other_command i k (evs : list (@Event Item)) :
  k ≠ i → Forall (λ e, event_command e = Some k) evs → fetches i evs = [].
Proof.
  intros Hne. induction 1 as [|e evs He _ IH]; [done|].
  change (e :: evs) with ([e] ++ evs). rewrite fetches_app, IH, app_nil_r.
  unfold fetches. destruct e; simpl in *; try done.
  rewrite decide_False; [done|congruence].
Qed.

(** The vector and the boolean of a command are those its last fetch has
    left, or those [execute] starts with. *)
Lemma last_fetch_iterate_state sched fcts G (w : @World Src F) i (fr : @Frame Item) :
  frames (iterate_state sched fcts G w) !! i = Some fr →
  (items fr, isRunning fr)
  = default (replicate G inhabitant, true)
      (last (fetches i (trace (iterate_state sched fcts G w)))).
Proof.
  revert fr. unfold iterate_state.
  apply (run_schedule_invariant (λ st, ∀ fr, frames st !! i = Some fr →
    (items fr, isRunning fr)
    = default (replicate G inhabitant, true) (last (fetches i (trace st))))).
  - intros st k Hinv frj Hj.
    destruct (schedule_one_cases (commands fcts (synchro_next w) G) st k)
      as [Heq|(c & fr & fr' & w' & evs & Hc & Hk & Hstep & Heq)];
      rewrite Heq in Hj |- *; [by apply Hinv|].
    simpl in *. rewrite fetches_app.
    destruct (lookup_insert_frame _ _ _ _ _ _ Hk Hj) as [[-> ->]|[Hne Hj']].
    + specialize (Hinv fr Hk).
      inversion Hstep; subst; simpl in *;
        rewrite ?decide_True by done; simpl; rewrite ?app_nil_r; try done.
      by rewrite last_snoc.
    + rewrite (fetches_other_command i k evs), app_nil_r;
        [by apply Hinv|done|by eapply Step_events].
  - intros fr. simpl. rewrite list_lookup_fmap.
    destruct (commands fcts (synchro_next w) G !! i) as [c|] eqn:Hc; [|done].
    apply commands_lookup in Hc as (a & _ & ->). by intros [= <-].
Qed.

End Vector.

(** X12, the vector is kept from one fetch to the next.  The vector a
    command hands to [get], and the boolean its loop tests, are at any time
    those its previous fetch has left, and before its first fetch a vector
    of [groupSize] default items and true: [groupSize] sizes the vector
    once, and later fetches are given whatever size the iterator has left
    it with. *)
Theorem vector_kept_between_fetches {Item Src F : Type}
  `{!Iterator Item Src} `{!Functor Item F} `{!Inhabited Item}
  (sched : list nat) (fcts : list nat) (G : nat) (w : @World Src F) (i : nat)
  (fr : @Frame Item) :
  frames (iterate_state sched fcts G w) !! i = Some fr →
  (items fr, isRunning fr)
  = default (replicate G inhabitant, true)
      (last (fetches i (trace (iterate_state sched fcts G w)))).
Proof. apply last_fetch_iterate_state. Qed.

Lemma vector_kept_between_fetches_witness :
  let w := {| source := {| content := [10; 20; 30]; cursor := 0 |};
              synchros := ∅; synchro_next := 0;
              functors := {[ 0 := 0; 1 := 0 ]} |} in
  let st := iterate_state [0; 0; 0; 0; 0; 0; 0; 0; 0; 0; 0] [0; 1] 2 w in
  ([30], false) = default (replicate 2 inhabitant, true) (last (fetches 0 (trace st))).
Proof.
  intros w st.
  apply (vector_kept_between_fetches [0; 0; 0; 0; 0; 0; 0; 0; 0; 0; 0] [0; 1] 2 w 0
           {| at_point := Done; items := [30]; isRunning := false |}).
  vm_compute. reflexivity.
Defined.

(** X13, a functor that raises does not block the others.  Over a
    sequential source, with a group size of at least one, whatever the
    functors do (some may raise, some addresses may not be alive) and
    however the commands have been scheduled so far, they can be scheduled
    further so that every command terminates, returned or raised: the
    dispatch is not left with a command that waits for the synchronizer. *)
Theorem functor_failure_does_not_block {Item F : Type} `{!Functor Item F} `{!Inhabited Item}
  (units : nat) (sched : list nat) (fcts : list nat) (G : nat)
  (w : @World (SequentialSource Item) F) :
  1 ≤ G →
  ∃ sched' w' tr,
    let o := iterate {| getExecutionUnitsNumber := units; schedule := sched ++ sched' |}
               fcts G w in
    o = Returned w' tr ∨ o = Failed w' tr.
Proof.
  intros HG.
  destruct (sound_completion fcts (synchro_next w) G _ (iterate_state sched fcts G w) HG
              (sound_inv_iterate_state sched fcts G w) (le_n _)) as [sched' Hterm].
  exists sched'. simpl. rewrite iterate_unfold. simpl.
  unfold iterate_state in *. rewrite run_schedule_app.
  apply forallb_terminated in Hterm. rewrite Hterm.
  destruct (forallb finished _); eauto.
Qed.

Lemma functor_failure_does_not_block_witness :
  let w := {| source := {| content := [10; 20; 30]; cursor := 0 |};
              synchros := ∅; synchro_next := 0;
              functors := {[ 0 := 0 ]} |} in
  ∃ sched' w' tr,
    let o := iterate {| getExecutionUnitsNumber := 2; schedule := [1; 1; 1; 1] ++ sched' |}
               [0; 7] 2 w in
    o = Returned w' tr ∨ o = Failed w' tr.
Proof.
  intros w. apply (functor_failure_does_not_block 2 [1; 1; 1; 1] [0; 7] 2 w). lia.
Defined.

Lemma called_items_new_delete {Item : Type} (l : list nat) :
  called_items (@EvNewFunctor Item <$> l) = [] ∧
  called_items (@EvDeleteFunctor Item <$> l) = [].
Proof. unfold called_items. split; by induction l. Qed.

(** X14, [iterate] can be called again.  Over a sequential source, a call
    of [iterate] that returns leaves the sequence of the source as it was,
    and a second call on it that returns, with one command at least, passes
    again every item of the sequence to the functors, once. *)
Theorem iterate_twice {Item F : Type} `{!Functor Item F} `{!Inhabited Item}
  (d1 d2 : ICommandDispatcher) (fcts1 fcts2 : list nat) (G1 G2 : nat)
  (w w1 w2 : @World (SequentialSource Item) F) (tr1 tr2 : list (@Event Item)) :
  iterate d1 fcts1 G1 w = Returned w1 tr1 →
  iterate d2 fcts2 G2 w1 = Returned w2 tr2 →
  fcts2 ≠ [] →
  content (source w1) = content (source w) ∧
  called_items tr2 ≡ₚ content (source w).
Proof.
  intros Hret1 Hret2 Hne.
  assert (Hcontent : content (source w1) = content (source w)).
  { apply iterate_Returned in Hret1 as (_ & -> & _). simpl.
    by destruct (partition_inv_iterate_state (schedule d1) fcts1 G1 w) as (-> & _). }
  split; [done|]. rewrite <-Hcontent. by eapply partition_safety.
Qed.

Lemma iterate_twice_witness :
  let w := {| source := {| content := [10; 20; 30]; cursor := 1 |};
              synchros := ∅; synchro_next := 0;
              functors := {[ 0 := 0; 1 := 0 ]} |} in
  let o1 := iterate (round_robin_dispatcher 2 2 12) [0; 1] 2 w in
  let o2 := iterate (serial_dispatcher 1 12) [1] 5 (outcome_world o1) in
  content (source (outcome_world o1)) = [10; 20; 30] ∧
  called_items (outcome_trace o2) ≡ₚ [10; 20; 30].
Proof.
  intros w o1 o2.
  apply (iterate_twice (round_robin_dispatcher 2 2 12) (serial_dispatcher 1 12)
           [0; 1] [1] 2 5 w (outcome_world o1) (outcome_world o2)
           (outcome_trace o1) (outcome_trace o2)).
  - vm_compute. reflexivity.
  - vm_compute. reflexivity.
  - done.
Defined.

(** X15, the overload for one functor processes the whole source.  Over a
    sequential source, with one execution unit at least: when the overload
    returns, the items passed to the copies of the functor are, as a
    multiset, the sequence of the source; and it does return, with a group
    size of at least one and a functor that does not raise, under a backend
    that gives every command a step in turn for enough rounds. *)
Theorem overload_processes_all {Item F : Type} `{!Functor Item F} `{!Inhabited Item}
  (functor : nat) (G : nat) (w : @World (SequentialSource Item) F) (f : F) :
  functors w !! functor = Some f →
  (∀ d w' tr, 1 ≤ getExecutionUnitsNumber d →
     iterate_functor d functor G w = Some (Returned w' tr) →
     called_items tr ≡ₚ content (source w)) ∧
  (∀ units rounds,
     1 ≤ G → (∀ (g : F) (x : Item), is_Some (call g x)) →
     (units + length (content (source w))) * (G + 4) ≤ rounds →
     ∃ w' tr,
       iterate_functor (round_robin_dispatcher units units rounds) functor G w
       = Some (Returned w' tr)).
Proof.
  intros Hf. split.
  - intros d w' tr Hunits. unfold iterate_functor. rewrite Hf. simpl.
    destruct (new_functors (getExecutionUnitsNumber d) f (functors w)) as [fcts h] eqn:Hnew.
    destruct (new_functors_spec _ _ _ _ _ Hnew) as (Hlen & _).
    destruct (iterate d fcts G (with_functors w h)) as [w1 tr1|w1 tr1|w1 tr1] eqn:Hit;
      intros [= <- <-].
    rewrite !called_items_app.
    rewrite (proj1 (called_items_new_delete fcts)), (proj2 (called_items_new_delete fcts)).
    rewrite app_nil_r. simpl.
    apply (partition_safety d fcts G (with_functors w h) w1 tr1); [|done].
    intros ->. simpl in Hlen. lia.
  - intros units rounds HG Htotal Hrounds. unfold iterate_functor. rewrite Hf. simpl.
    destruct (new_functors units f (functors w)) as [fcts h] eqn:Hnew.
    destruct (new_functors_spec _ _ _ _ _ Hnew) as (Hlen & _ & Hin & _).
    destruct (iterate_round_robin_returns Htotal units rounds fcts G (with_functors w h))
      as (w1 & tr1 & Hret); [done| |by rewrite Hlen|].
    + intros a Ha. simpl. destruct (Hin a Ha) as [_ ->]. by eexists.
    + rewrite Hlen in Hret. rewrite Hret. by do 2 eexists.
Qed.

Lemma overload_processes_all_witness :
  let w := {| source := {| content := [10; 20; 30]; cursor := 1 |};
              synchros := ∅; synchro_next := 0;
              functors := {[ 4 := 0 ]} |} in
  (∀ d w' tr, 1 ≤ getExecutionUnitsNumber d →
     iterate_functor d 4 2 w = Some (Returned w' tr) →
     called_items tr ≡ₚ [10; 20; 30]) ∧
  (∀ units rounds,
     1 ≤ 2 → (∀ (g x : nat), is_Some (call g x)) →
     (units + 3) * (2 + 4) ≤ rounds →
     ∃ w' tr,
       iterate_functor (round_robin_dispatcher units units rounds) 4 2 w
       = Some (Returned w' tr)).
Proof.
  intros w. exact (overload_processes_all 4 2 w 0 eq_refl).
Defined.
